(** * merklificator.py: chunking of executed bytes and counting of the
      hashes a Merkle multiproof of the executed chunks needs

    Shallow embedding of [chunkmap_from_bytemap] and [merklize] of
    [src/merklificator.py], and the properties the specification states
    about them; then of [clamp], [represent_contract], the bucket loop of
    [sparkline_sizes] and the parts of [main] that collect the transactions
    of a block and chunk a contract, with properties read off the code.

    Conventions of the model.
    - Python integers are [Z]; [//] is [Z.div] (both round to the floor).
    - [math.ceil(x / y)] is the exact ceiling of the quotient.  Python goes
      through a float here: the quotient is rounded to the nearest double,
      which has the same ceiling for 0 <= x < 2^53 and 1 <= y < 2^53; beyond
      that the double may round to another integer, overflow (OverflowError)
      or underflow to 0.0, none of which the model has.  This is why
      theorems about [merklize] and its loop take the width of the tree
      below 2^53: the width bounds every operand, that is the arity (the
      loop runs from a width of at least the arity), the width itself, and
      the maximum of a level plus one.  Every bound that [main] derives
      from MAXCODESIZE is in that range.  Likewise the floats of
      [sparkline_sizes] are exact for sizes of absolute value below 2^52.
    - An exception is a value of [exn]; code that may raise returns
      [result].  Assertions are taken as enabled.
    - The [while] loop of [merklize] is run with fuel; [OutOfFuel] is the
      result of a run that was cut short, and is proved never to happen. *)

From stdpp Require Import base numbers list sets gmap fin_sets strings sorting.
From Stdlib Require Import ZArith Lia DecimalString.

#[local] Open Scope Z_scope.

(** ** Exceptions and results *)

Inductive exn : Set :=
  | ValueError          (* math.log out of its domain *)
  | ZeroDivisionError   (* division by zero *)
  | AssertionError      (* a failed assert *)
  | UnboundLocalError   (* a local variable read before it was bound; a NameError *)
  | EmptyBitmapError.   (* max() of an empty bitmap *)

Inductive result (A : Type) : Type :=
  | Ok (a : A)
  | Raise (e : exn)
  | OutOfFuel.
Arguments Ok {A} a.
Arguments Raise {A} e.
Arguments OutOfFuel {A}.

#[global] Instance result_ret : MRet result := λ A a, Ok a.

#[global] Instance result_bind : MBind result := λ A B k r,
  match r with
  | Ok a => k a
  | Raise e => Raise e
  | OutOfFuel => OutOfFuel
  end.

Definition fails {A} (r : result A) : Prop := ∃ e, r = Raise e.
Definition returns {A} (r : result A) : Prop := ∃ a, r = Ok a.

Definition assert (b : bool) : result unit :=
  if b then Ok tt else Raise AssertionError.

(** ** RoaringBitmap *)

(** Modelled from the spec: the [roaringbitmap] package is not part of the
    repository.  Its bitmap is the SparseIndexSet of the specification, a
    finite set of unsigned integers with membership, cardinality, maximum
    (an error on the empty set) and the extraction of a sub-range
    ([clamp]). *)
Module RoaringBitmap.

Abbreviation t := (gset Z).

(** What the bitmap can hold: unsigned 32-bit integers. *)
Definition wf (X : t) : Prop := ∀ x, x ∈ X → 0 ≤ x < 2 ^ 32.

(** [RoaringBitmap(iterable)] *)
Definition of_list (l : list Z) : t := list_to_set l.

(** [len(X)] *)
Definition len (X : t) : Z := Z.of_nat (size X).

(** [X.max()]: an error on the empty bitmap, whatever exception the package
    raises for it. *)
Definition max (X : t) : result Z :=
  match elements X with
  | [] => Raise EmptyBitmapError
  | x :: l => Ok (foldr Z.max x l)
  end.

(** [X.clamp(start, stop)]: the elements of [X] in [start, stop). *)
Definition clamp (X : t) (start stop : Z) : t :=
  filter (λ x, start ≤ x < stop) X.

(** [x in X] *)
Definition mem (x : Z) (X : t) : bool := bool_decide (x ∈ X).

(** [X.add(x)] *)
Definition add (x : Z) (X : t) : t := {[x]} ∪ X.

End RoaringBitmap.

(** [range(lo, hi)] *)
Definition range (lo hi : Z) : list Z := seqZ lo (hi - lo).

(** [math.ceil(x / y)] where the float quotient is exact enough, that is for
    [0 ≤ x < 2 ^ 53] and [1 ≤ y < 2 ^ 53]: there the nearest double of
    [x / y] has the ceiling of [x / y].  [merklize] only divides by [arity],
    after line 81 has excluded every arity below 2. *)
Definition ceil_div (x y : Z) : Z := - ((- x) / y).

(** ** chunkmap_from_bytemap *)

(** The body of the [for c in range(0, max_contract_chunk + 1)] loop. *)
Definition chunk_body (bytemap : RoaringBitmap.t) (chunk_size : Z)
    (chunkmap : RoaringBitmap.t) (c : Z) : RoaringBitmap.t :=
  let chunk_start := c * chunk_size in
  let chunk_stop := (c + 1) * chunk_size in
  let overlap := RoaringBitmap.clamp bytemap chunk_start chunk_stop in
  if negb (RoaringBitmap.len overlap =? 0)
  then RoaringBitmap.add c chunkmap
  else chunkmap.

(** The [else] branch: scan of the chunks up to [max_contract_chunk]. *)
Definition chunk_scan (bytemap : RoaringBitmap.t) (chunk_size : Z)
    (max_contract_chunk : Z) : RoaringBitmap.t :=
  foldl (chunk_body bytemap chunk_size) ∅ (range 0 (max_contract_chunk + 1)).

Definition chunkmap_from_bytemap (bytemap : RoaringBitmap.t) (chunk_size : Z)
    : result RoaringBitmap.t :=
  m ← RoaringBitmap.max bytemap;
  if chunk_size =? 0 then Raise ZeroDivisionError else
  let max_contract_chunk := m / chunk_size in
  if chunk_size =? 1 then
    Ok bytemap
  else
    Ok (chunk_scan bytemap chunk_size max_contract_chunk).

(** ** merklize *)

(** [f"{z}"] for an integer. *)
Definition str (z : Z) : string := NilZero.string_of_int (Z.to_int z).

(** [f"L{level}_{idx}"], the name of a node in the drawing. *)
Definition node_label (level idx : Z) : string :=
  "L" +:+ str level +:+ "_" +:+ str idx.

Definition newline : string := String (Ascii.ascii_of_nat 10) EmptyString.
Definition dquote : string := String (Ascii.ascii_of_nat 34) EmptyString.

(** [' [style = "filled" fillcolor = <colour>] \n'] *)
Definition filled (colour : string) : string :=
  " [style = " +:+ dquote +:+ "filled" +:+ dquote +:+ " fillcolor = "
  +:+ colour +:+ "] " +:+ newline.

(** The local variables of [merklize] that the loops update.  [dotfile] is
    what has been written to the file so far (empty without a [filename]);
    [levels] is a ghost variable, the value of [parents] at the end of each
    iteration of the [while] loop. *)
Record locals : Type := Locals {
  current_level : Z;
  num_hashes : Z;
  theoretical_siblings : Z;
  map : RoaringBitmap.t;
  parents : list Z;
  p : option Z;
  dotfile : list string;
  levels : list (list Z)
}.

Definition write (line : string) (st : locals) : locals :=
  Locals (current_level st) (num_hashes st) (theoretical_siblings st) (map st)
         (parents st) (p st) (dotfile st ++ [line]) (levels st).

Definition bind_p (v : Z) (st : locals) : locals :=
  Locals (current_level st) (num_hashes st) (theoretical_siblings st) (map st)
         (parents st) (Some v) (dotfile st) (levels st).

(** [parents.append(p); hashes_missing = arity - lo;
     num_hashes += hashes_missing] *)
Definition record_parent (v : Z) (hashes_missing : Z) (st : locals) : locals :=
  Locals (current_level st) (num_hashes st + hashes_missing)
         (theoretical_siblings st) (map st)
         (parents st ++ [v]) (p st) (dotfile st) (levels st).

(** A [for] loop whose body may raise. *)
Fixpoint for_each {S A} (body : S → A → result S) (s : S) (l : list A)
    : result S :=
  match l with
  | [] => Ok s
  | a :: l => s' ← body s a; for_each body s' l
  end.

(** The body of [for s in range(siblings_start, siblings_end)], which only
    writes to the file. *)
Definition draw_sibling (parent : string) (lo : Z) (st : locals) (s : Z)
    : locals :=
  let sibling := node_label (current_level st) s in
  let st := write (parent +:+ " -- " +:+ sibling +:+ newline) st in
  if lo =? 0 then st
  else if negb (RoaringBitmap.mem s (map st)) then
    write (sibling +:+ filled "red") st
  else if current_level st =? 0 then
    write (sibling +:+ filled "lawngreen") st
  else
    write (sibling +:+ filled "gray70") st.

(** The body of [for p in range(0, parents_to_check)]. *)
Definition parent_body (filename : option string) (arity : Z)
    (max_actual_parents : Z) (st : locals) (v : Z) : result locals :=
  let st := bind_p v st in
  let siblings_start := v * arity in
  let siblings_end := (v + 1) * arity in
  let siblings_end := Z.min siblings_end (theoretical_siblings st) in
  let overlap := RoaringBitmap.clamp (map st) siblings_start siblings_end in
  let lo := RoaringBitmap.len overlap in
  let st :=
    match filename with
    | Some _ =>
        let parent := node_label (current_level st + 1) v in
        foldl (draw_sibling parent lo) st (range siblings_start siblings_end)
    | None => st
    end in
  if lo =? 0 then Ok st
  else
    _ ← assert (v <? max_actual_parents);
    Ok (record_parent v (arity - lo) st).

(** The body of [while theoretical_siblings >= arity]. *)
Definition level_body (filename : option string) (arity : Z) (st : locals)
    : result locals :=
  let st := Locals (current_level st) (num_hashes st) (theoretical_siblings st)
                   (map st) [] (p st) (dotfile st) (levels st) in
  m ← RoaringBitmap.max (map st);
  let max_actual_parents := ceil_div (m + 1) arity in
  let theoretical_parents := ceil_div (theoretical_siblings st) arity in
  let parents_to_check :=
    match filename with
    | Some _ => theoretical_parents
    | None => max_actual_parents
    end in
  st ← for_each (parent_body filename arity max_actual_parents) st
                (range 0 parents_to_check);
  Ok (Locals (current_level st + 1) (num_hashes st) theoretical_parents
             (RoaringBitmap.of_list (parents st)) (parents st) (p st)
             (dotfile st) (levels st ++ [parents st])).

(** [while theoretical_siblings >= arity: ...], for at most [fuel]
    iterations. *)
Fixpoint level_loop (fuel : nat) (filename : option string) (arity : Z)
    (st : locals) : result locals :=
  if arity <=? theoretical_siblings st then
    match fuel with
    | O => OutOfFuel
    | S fuel =>
        st ← level_body filename arity st;
        level_loop fuel filename arity st
    end
  else Ok st.

(** [math.log(x)] is only evaluated for its exceptions: it raises ValueError
    unless [x] is positive. *)
Definition math_log_check (x : Z) : result unit :=
  if 0 <? x then Ok tt else Raise ValueError.

(** The whole function, up to its [return]; the result is the final value of
    the local variables.  Opening the file is assumed to succeed.  The
    quotient of line 81 divides by [math.log(arity)], which is [0.0] for
    [arity = 1].  The loop gets [max_theoretical_chunks] as fuel, which is
    more than it uses ([level_loop_exits], [level_loop_fuel]). *)
Definition merklize_run (chunkmap : RoaringBitmap.t) (arity : Z)
    (max_theoretical_chunks : Z) (filename : option string) : result locals :=
  let dotfile :=
    match filename with
    | Some _ => ["graph  {" +:+ newline]
    | None => []
    end in
  _ ← math_log_check max_theoretical_chunks;
  _ ← math_log_check arity;
  _ ← (if arity =? 1 then Raise ZeroDivisionError else Ok tt);
  m ← RoaringBitmap.max chunkmap;
  _ ← assert (m <? max_theoretical_chunks);
  st ← level_loop (Z.to_nat max_theoretical_chunks) filename arity
         (Locals 0 0 max_theoretical_chunks chunkmap [] None dotfile []);
  v ← match p st with
      | Some v => Ok v
      | None => Raise UnboundLocalError
      end;
  let root := node_label (current_level st) v in
  Ok match filename with
     | Some _ => write "}" (write (root +:+ filled "gray70") st)
     | None => st
     end.

(** [merklize(chunkmap, arity, max_theoretical_chunks, filename)] *)
Definition merklize (chunkmap : RoaringBitmap.t) (arity : Z)
    (max_theoretical_chunks : Z) (filename : option string) : result Z :=
  st ← merklize_run chunkmap arity max_theoretical_chunks filename;
  Ok (num_hashes st).

(** The parents recorded at each level, in the order they were appended. *)
Definition recorded_levels (chunkmap : RoaringBitmap.t) (arity : Z)
    (max_theoretical_chunks : Z) (filename : option string)
    : result (list (list Z)) :=
  st ← merklize_run chunkmap arity max_theoretical_chunks filename;
  Ok (levels st).

(** ** clamp *)

(** [clamp(n, min_n, max_n)]: the upper bound is tested first. *)
Definition clamp (n min_n max_n : Z) : Z :=
  if max_n <=? n then max_n
  else if n <=? min_n then min_n
  else n.

(** ** represent_contract *)

(** The body of [for b in range(0, codesize)]: a bar before the first byte of
    a chunk, then one character for the byte.  [b % chunk_size] divides by
    zero for a chunk size of 0. *)
Definition represent_byte (bytemap chunkmap : RoaringBitmap.t) (chunk_size : Z)
    (contract_representation : string) (b : Z) : result string :=
  if chunk_size =? 0 then Raise ZeroDivisionError else
  let contract_representation :=
    if b `mod` chunk_size =? 0 then contract_representation +:+ "|"
    else contract_representation in
  let b_in_chunkmap := RoaringBitmap.mem (b / chunk_size) chunkmap in
  let char := "." in
  let char := if RoaringBitmap.mem b bytemap then "X" else char in
  let char := if b_in_chunkmap then "m" else char in
  let char :=
    if RoaringBitmap.mem b bytemap && b_in_chunkmap then "M" else char in
  Ok (contract_representation +:+ char).

(** The variable [contract_representation] after the loop of lines 22 to
    33. *)
Definition contract_representation (bytemap : RoaringBitmap.t) (codesize : Z)
    (chunkmap : RoaringBitmap.t) (chunk_size : Z) : result string :=
  for_each (represent_byte bytemap chunkmap chunk_size) "" (range 0 codesize).

(** [represent_contract(bytemap, codesize, chunkmap, chunk_size)]; the result
    is the text that line 34 prints: [print(contract_representation, "\n")]
    writes the picture, the separator of [print] (a space), its second
    argument (a newline) and the end of [print] (a newline). *)
Definition represent_contract (bytemap : RoaringBitmap.t) (codesize : Z)
    (chunkmap : RoaringBitmap.t) (chunk_size : Z) : result string :=
  picture ← contract_representation bytemap codesize chunkmap chunk_size;
  Ok (picture +:+ " " +:+ newline +:+ newline).

(** ** main: the chunking of one contract *)

Definition MAXCODESIZE : Z := 24576.  (* 0x6000, from EIP 170 *)

(** What lines 319 to 333 compute for one contract and one chunk size. *)
Record chunking : Type := Chunking {
  num_chunks : Z;
  chunked_bytes : Z;
  merklization_hashes : Z;
  highlighted : bool   (* the sanity check of line 330 has failed *)
}.

(** The body of [for csi in range(0, len(chunk_sizes))], lines 319 to 333,
    for the contract with the bytes [bytemap] and the size [codesize]. *)
Definition chunk_contract (bytemap : RoaringBitmap.t) (codesize : Z)
    (chunk_size arity : Z) : result chunking :=
  let executed_bytes := RoaringBitmap.len bytemap in
  chunkmap ← chunkmap_from_bytemap bytemap chunk_size;
  let max_theoretical_chunks := MAXCODESIZE / chunk_size in
  merklization_hashes ← merklize chunkmap arity max_theoretical_chunks None;
  let num_chunks := RoaringBitmap.len chunkmap in
  let chunked_bytes := num_chunks * chunk_size in
  if chunked_bytes <? executed_bytes then
    _ ← represent_contract bytemap codesize chunkmap chunk_size;
    Ok (Chunking num_chunks chunked_bytes merklization_hashes true)
  else
    Ok (Chunking num_chunks chunked_bytes merklization_hashes false).

(** ** sparkline_sizes *)

(** [int(statistics.median(data))]: the middle element of the sorted data,
    or the mean of the two middle elements, truncated towards zero.  The
    mean is a float in Python, [(a + b) / 2], which is the exact mean for
    data of absolute value below 2^52.  On empty data [statistics.median]
    raises StatisticsError, which is a ValueError. *)
Definition int_median (data : list Z) : result Z :=
  let data := merge_sort Z.le data in
  let n := Z.of_nat (length data) in
  if n =? 0 then Raise ValueError
  else if n `mod` 2 =? 1 then Ok (data !!! Z.to_nat (n / 2))
  else
    let i := n / 2 in
    Ok (Z.quot (data !!! Z.to_nat (i - 1) + data !!! Z.to_nat i) 2).

(** [for s in sorted_sizes: ...], lines 55 to 62, with [bucket_size = 1]; the
    loop stops at the first size that is beyond the buckets.  The float
    [s / bucket_size] of line 56 is [s] itself for sizes of absolute value
    below 2^53.  [clamp] keeps the index within the list
    ([fill_buckets_spec]). *)
Fixpoint fill_buckets (maxbucket : Z) (buckets_contents : list Z) (count : Z)
    (sorted_sizes : list Z) : list Z * Z :=
  match sorted_sizes with
  | [] => (buckets_contents, count)
  | s :: sorted_sizes =>
      let b := ceil_div s 1 in
      if maxbucket <=? b then (buckets_contents, count)
      else
        let count := count + 1 in
        let b := clamp b 0 (Z.of_nat (length buckets_contents) - 1) in
        fill_buckets maxbucket (alter (Z.add 1) (Z.to_nat b) buckets_contents)
                     count sorted_sizes
  end.

(** What [sparkline_sizes] has computed when it builds its result. *)
Inductive bucketing : Type :=
  | CantBucketize   (* the message of line 51 is returned *)
  | Bucketized (median : Z) (buckets_maxcontent buckets_contents : list Z)
               (count : Z).

(** [sparkline_sizes(sorted_sizes)] up to line 62.  The line that is
    returned is made of these values by the [sparklines] package and by
    float formatting, which are not modelled. *)
Definition sparkline_buckets (sorted_sizes : list Z) : result bucketing :=
  median ← int_median sorted_sizes;
  let top_bucket := 2 * median in
  let buckets_maxcontent := range 1 top_bucket in
  if Z.of_nat (length buckets_maxcontent) =? 0 then Ok CantBucketize
  else
    let buckets_contents := (λ _, 0) <$> buckets_maxcontent in
    let maxbucket := Z.of_nat (length buckets_maxcontent) in
    let '(buckets_contents, count) :=
      fill_buckets maxbucket buckets_contents 0 sorted_sizes in
    Ok (Bucketized median buckets_maxcontent buckets_contents count).

(** ** main: the transactions of one block *)

(** Modelled from the spec: [bytemap.update(range(lo, hi))] of the
    [roaringbitmap] package, the [add_range] of the SparseIndexSet, for
    values that the bitmap can hold. *)
Definition bitmap_update (X : RoaringBitmap.t) (values : list Z)
    : RoaringBitmap.t :=
  X ∪ list_to_set values.

Module Block.

(** The objects of a trace file, with the keys that [main] reads.  The key
    ["End"] is the field [End_]. *)
Record segment : Type := Segment { Start : Z; End_ : Z }.

Record trace : Type := Trace {
  Tx : option string;
  TxAddr : string;
  CodeHash : string;
  CodeSize : Z;
  Segments : list segment
}.

(** The values of [dict_contracts]. *)
Record contract_data : Type := ContractData {
  instances : Z;
  size : Z;
  map : RoaringBitmap.t
}.

(** The variables of lines 244 to 250 that the loop over the transactions
    updates. *)
Record vars : Type := Vars {
  dict_contracts : gmap string contract_data;
  reused_contracts : Z;
  empty_transactions : Z;
  block_segsizes : list Z;
  block_numsegments : Z
}.

(** The body of [for s in t["Segments"]], on [bytemap] and [tx_segsizes]. *)
Definition segment_body (segment_stats : bool)
    (acc : RoaringBitmap.t * list Z) (s : segment) : RoaringBitmap.t * list Z :=
  let '(bytemap, tx_segsizes) := acc in
  let range_code := range (Start s) (End_ s + 1) in
  let bytemap := bitmap_update bytemap range_code in
  if segment_stats then
    let length := End_ s - Start s + 1 in
    (bytemap, tx_segsizes ++ [length])
  else (bytemap, tx_segsizes).

(** The body of [for t in traces], lines 252 to 286.  Lines 287 to 294 only
    run at detail level 3, which is not the default, and are left out. *)
Definition trace_body (segment_stats : bool) (st : vars) (t : trace) : vars :=
  match Tx t with
  | None =>
      Vars (dict_contracts st) (reused_contracts st)
           (empty_transactions st + 1) (block_segsizes st)
           (block_numsegments st)
  | Some tx_hash =>
      let codehash := CodeHash t in
      let data := dict_contracts st !! codehash in
      let '(reused, bytemap, instances, size) :=
        match data with
        | None => (reused_contracts st, ∅, 1, CodeSize t)
        | Some data =>
            (reused_contracts st + 1, map data, instances data + 1, size data)
        end in
      let '(bytemap, tx_segsizes) :=
        foldl (segment_body segment_stats) (bytemap, []) (Segments t) in
      let numsegments :=
        block_numsegments st + Z.of_nat (length (Segments t)) in
      let dict :=
        <[codehash := ContractData instances size bytemap]>
          (dict_contracts st) in
      let segsizes :=
        if segment_stats then block_segsizes st ++ merge_sort Z.le tx_segsizes
        else block_segsizes st in
      Vars dict reused (empty_transactions st) segsizes numsegments
  end.

(** [sum([c["instances"] for c in dict_contracts.values()])] *)
Definition executed_transactions (dict : gmap string contract_data) : Z :=
  map_fold (λ _ c acc, instances c + acc) 0 dict.

(** Lines 241 to 303 for the transactions of one block: [None] when the
    block is skipped, because it has no transaction or none with code;
    otherwise the variables after the coherency check of line 298. *)
Definition accumulate (segment_stats : bool) (traces : list trace)
    : result (option vars) :=
  if Z.of_nat (length traces) =? 0 then Ok None
  else
    let st := foldl (trace_body segment_stats) (Vars ∅ 0 0 [] 0) traces in
    let executed := executed_transactions (dict_contracts st) in
    _ ← assert (Z.of_nat (length traces)
                =? executed + empty_transactions st);
    if executed =? 0 then Ok None else Ok (Some st).

(** The transactions with code of the contract [codehash]. *)
Definition contract_traces (codehash : string) (traces : list trace)
    : list trace :=
  filter (λ t, is_Some (Tx t) ∧ CodeHash t = codehash) traces.

(** The segments of the transactions are within what a bitmap can hold. *)
Definition valid (traces : list trace) : Prop :=
  ∀ t s, t ∈ traces → s ∈ Segments t → 0 ≤ Start s ∧ End_ s < 2 ^ 32.

End Block.

(** ** Auxiliary notions for the proofs *)

(** [lo] for the parent [v]: how many of its siblings are in [M]. *)
Definition group_len (M : RoaringBitmap.t) (arity ts : Z) (v : Z) : Z :=
  RoaringBitmap.len (RoaringBitmap.clamp M (v * arity) (Z.min ((v + 1) * arity) ts)).

(** The candidates that get appended to [parents]. *)
Definition present_parents (M : RoaringBitmap.t) (arity ts : Z)
    (cands : list Z) : list Z :=
  filter (λ v, group_len M arity ts v ≠ 0) cands.

(** What the candidates add to [num_hashes]. *)
Definition missing_hashes (M : RoaringBitmap.t) (arity ts : Z)
    (cands : list Z) : Z :=
  foldr (λ v acc, (arity - group_len M arity ts v) + acc) 0
        (present_parents M arity ts cands).

(** The invariant of the [while] loop: the level is not empty and lies within
    its theoretical width. *)
Definition level_inv (st : locals) : Prop :=
  map st ≠ ∅ ∧ ∀ x, x ∈ map st → 0 ≤ x < theoretical_siblings st.

(** The variables of [merklize] that do not depend on the drawing: all but
    [dotfile], and of [p] only whether it is bound. *)
Definition core (st : locals)
    : Z * Z * Z * RoaringBitmap.t * list Z * list (list Z) * bool :=
  (current_level st, num_hashes st, theoretical_siblings st, map st,
   parents st, levels st, bool_decide (is_Some (p st))).

(** The number of levels of the specification, [ceil(log_arity(n))]: the
    least [L] with [n ≤ arity ^ L], found by trying [L = 0, 1, ...]
    ([ceil_log_spec]).  The code computes it as a float, [num_levels], and
    does not use it. *)
Fixpoint ceil_log_from (fuel : nat) (arity n pow L : Z) : Z :=
  if n <=? pow then L
  else match fuel with
       | O => L
       | S fuel => ceil_log_from fuel arity n (pow * arity) (L + 1)
       end.

Definition ceil_log (arity n : Z) : Z :=
  ceil_log_from (Z.to_nat n) arity n 1 0.

(** The value of the loop variable after [for p in cands], when it was
    [p0] before. *)
Definition last_bound (p0 : option Z) (cands : list Z) : option Z :=
  match last cands with
  | Some v => Some v
  | None => p0
  end.

(** The parents of a level, and the hashes it misses, taken over the whole
    theoretical width. *)
Definition level_parents (M : RoaringBitmap.t) (arity ts : Z) : list Z :=
  present_parents M arity ts (range 0 (ceil_div ts arity)).

Definition level_missing (M : RoaringBitmap.t) (arity ts : Z) : Z :=
  missing_hashes M arity ts (range 0 (ceil_div ts arity)).

(** How often the one-character string [x] occurs in [s]. *)
Fixpoint count_char (x : string) (s : string) : Z :=
  match s with
  | EmptyString => 0
  | String c s =>
      (if String.eqb (String c EmptyString) x then 1 else 0) + count_char x s
  end.

(** The sum of a list of integers. *)
Definition total (l : list Z) : Z := foldr Z.add 0 l.

(** * Properties *)

(** ** Arithmetic *)

Lemma ceil_div_bounds x y :
  0 < y → (ceil_div x y - 1) * y < x ≤ ceil_div x y * y.
Proof.
  intros Hy. unfold ceil_div.
  pose proof (Z.div_mod (- x) y ltac:(lia)) as Hdm.
  pose proof (Z.mod_pos_bound (- x) y Hy) as Hm.
  nia.
Qed.

Lemma ceil_div_mono x x' y : 0 < y → x ≤ x' → ceil_div x y ≤ ceil_div x' y.
Proof.
  intros Hy Hx.
  pose proof (ceil_div_bounds x y Hy). pose proof (ceil_div_bounds x' y Hy).
  nia.
Qed.

Lemma ceil_div_lt x y : 2 ≤ y → y ≤ x → 1 ≤ ceil_div x y < x.
Proof.
  intros Hy Hx. pose proof (ceil_div_bounds x y ltac:(lia)). nia.
Qed.

Lemma elem_of_range lo hi v : v ∈ range lo hi ↔ lo ≤ v < hi.
Proof. unfold range. rewrite elem_of_seqZ. lia. Qed.

Lemma range_split lo mid hi :
  lo ≤ mid → mid ≤ hi → range lo hi = range lo mid ++ range mid hi.
Proof.
  intros H1 H2. unfold range.
  replace (hi - lo) with ((mid - lo) + (hi - mid)) by lia.
  rewrite seqZ_app by lia. do 2 f_equal. lia.
Qed.

Lemma range_snoc n : 0 ≤ n → range 0 (n + 1) = range 0 n ++ [n].
Proof.
  intros Hn. rewrite (range_split 0 n (n + 1)) by lia. f_equal.
  unfold range. replace (n + 1 - n) with 1 by lia.
  rewrite seqZ_cons by lia. by rewrite seqZ_nil by lia.
Qed.

Lemma range_empty lo hi : hi ≤ lo → range lo hi = [].
Proof. intros. unfold range. apply seqZ_nil. lia. Qed.

(** ** RoaringBitmap *)

Lemma foldr_max_elem x (l : list Z) :
  foldr Z.max x l ∈ x :: l ∧ ∀ y, y ∈ x :: l → y ≤ foldr Z.max x l.
Proof.
  induction l as [|z l [IH1 IH2]]; simpl.
  - split; [left|]. intros y Hy. apply list_elem_of_singleton in Hy. lia.
  - split.
    + destruct (Z.max_spec z (foldr Z.max x l)) as [[_ ->]|[_ ->]].
      * apply elem_of_cons in IH1 as [->|?]; [left|by do 2 right].
      * right; left.
    + intros y Hy. rewrite !elem_of_cons in Hy.
      destruct Hy as [->|[->|Hy]].
      * specialize (IH2 x ltac:(left)). lia.
      * lia.
      * specialize (IH2 y ltac:(by right)). lia.
Qed.

Lemma max_empty : RoaringBitmap.max ∅ = Raise EmptyBitmapError.
Proof. reflexivity. Qed.

Lemma max_nonempty (X : gset Z) :
  X ≠ ∅ → ∃ m, RoaringBitmap.max X = Ok m ∧ m ∈ X ∧ ∀ x, x ∈ X → x ≤ m.
Proof.
  intros HX. unfold RoaringBitmap.max.
  destruct (elements X) as [|x l] eqn:E.
  - apply elements_empty_iff in E. by apply leibniz_equiv in E.
  - destruct (foldr_max_elem x l) as [H1 H2]. rewrite <- E in H1, H2.
    exists (foldr Z.max x l). split; [done|]. split.
    + by apply elem_of_elements.
    + intros y Hy. apply H2. by apply elem_of_elements.
Qed.

Lemma max_Ok (X : gset Z) m :
  RoaringBitmap.max X = Ok m → X ≠ ∅ ∧ m ∈ X ∧ ∀ x, x ∈ X → x ≤ m.
Proof.
  intros Hm. destruct (decide (X = ∅)) as [->|HX].
  - by rewrite max_empty in Hm.
  - destruct (max_nonempty X HX) as (m' & Hm' & ?). split; [done|].
    rewrite Hm in Hm'. by injection Hm' as ->.
Qed.

Lemma max_cases (X : gset Z) :
  (X = ∅ ∧ RoaringBitmap.max X = Raise EmptyBitmapError)
  ∨ (∃ m, RoaringBitmap.max X = Ok m ∧ X ≠ ∅ ∧ m ∈ X ∧ ∀ x, x ∈ X → x ≤ m).
Proof.
  destruct (decide (X = ∅)) as [->|HX]; [left; by rewrite max_empty|right].
  destruct (max_nonempty X HX) as (m & ? & ? & ?). by exists m.
Qed.

Lemma elem_of_clamp (X : gset Z) a b x :
  x ∈ RoaringBitmap.clamp X a b ↔ a ≤ x < b ∧ x ∈ X.
Proof. unfold RoaringBitmap.clamp. by rewrite elem_of_filter. Qed.

Lemma len_nonneg (X : gset Z) : 0 ≤ RoaringBitmap.len X.
Proof. unfold RoaringBitmap.len. lia. Qed.

Lemma len_zero (X : gset Z) : RoaringBitmap.len X = 0 ↔ X = ∅.
Proof.
  unfold RoaringBitmap.len. split.
  - intros H. apply leibniz_equiv, size_empty_iff. lia.
  - intros ->. by rewrite size_empty.
Qed.

Lemma len_clamp_zero (X : gset Z) a b :
  RoaringBitmap.len (RoaringBitmap.clamp X a b) = 0
  ↔ ∀ x, x ∈ X → ¬ (a ≤ x < b).
Proof.
  rewrite len_zero. split.
  - intros HE x Hx Hab. assert (x ∈ RoaringBitmap.clamp X a b) as Hin
      by by apply elem_of_clamp.
    rewrite HE in Hin. by apply not_elem_of_empty in Hin.
  - intros H. apply set_eq. intros x. rewrite elem_of_clamp.
    split; [|by intros ?%not_elem_of_empty]. intros [Hab Hx]. exfalso.
    exact (H x Hx Hab).
Qed.

Lemma len_clamp_pos (X : gset Z) a b :
  RoaringBitmap.len (RoaringBitmap.clamp X a b) ≠ 0
  ↔ ∃ x, x ∈ X ∧ a ≤ x < b.
Proof.
  rewrite len_zero. split.
  - intros HE. apply set_choose_L in HE as [x Hx].
    apply elem_of_clamp in Hx as [Hab Hx]. by exists x.
  - intros (x & Hx & Hab) HE.
    assert (x ∈ RoaringBitmap.clamp X a b) as Hin by by apply elem_of_clamp.
    rewrite HE in Hin. by apply not_elem_of_empty in Hin.
Qed.

Lemma len_mono (X Y : gset Z) : X ⊆ Y → RoaringBitmap.len X ≤ RoaringBitmap.len Y.
Proof. intros H. unfold RoaringBitmap.len. apply subseteq_size in H. lia. Qed.

Lemma len_clamp_le (X : gset Z) a b :
  RoaringBitmap.len (RoaringBitmap.clamp X a b) ≤ RoaringBitmap.len X.
Proof. apply len_mono. intros x. rewrite elem_of_clamp. tauto. Qed.

(** A bitmap has at most [b - a] elements in [a, b). *)
Lemma len_clamp_width (X : gset Z) a b :
  RoaringBitmap.len (RoaringBitmap.clamp X a b) ≤ Z.max 0 (b - a).
Proof.
  assert (RoaringBitmap.clamp X a b ⊆ list_to_set (seqZ a (b - a))) as Hsub.
  { intros x. rewrite elem_of_clamp, elem_of_list_to_set, elem_of_seqZ. lia. }
  apply subseteq_size in Hsub.
  rewrite size_list_to_set in Hsub by apply NoDup_seqZ.
  rewrite length_seqZ in Hsub. unfold RoaringBitmap.len. lia.
Qed.

(** Cutting a range in two cuts the count in two. *)
Lemma len_clamp_split (X : gset Z) a b c :
  a ≤ b → b ≤ c →
  RoaringBitmap.len (RoaringBitmap.clamp X a c)
  = RoaringBitmap.len (RoaringBitmap.clamp X a b)
    + RoaringBitmap.len (RoaringBitmap.clamp X b c).
Proof.
  intros Hab Hbc.
  assert (RoaringBitmap.clamp X a c
          = RoaringBitmap.clamp X a b ∪ RoaringBitmap.clamp X b c) as ->.
  { apply set_eq. intros x. rewrite elem_of_union, !elem_of_clamp.
    destruct (decide (x < b)); intuition lia. }
  unfold RoaringBitmap.len. rewrite size_union; [lia|].
  intros x [? _]%elem_of_clamp [? _]%elem_of_clamp. lia.
Qed.

Lemma clamp_all (X : gset Z) a b :
  (∀ x, x ∈ X → a ≤ x < b) → RoaringBitmap.clamp X a b = X.
Proof.
  intros H. apply set_eq. intros x. rewrite elem_of_clamp.
  split; [tauto|]. intros Hx. split; [by apply H|done].
Qed.

(** ** chunkmap_from_bytemap *)

Lemma chunk_body_cases (B : gset Z) cs (acc : gset Z) c :
  (chunk_body B cs acc c = {[c]} ∪ acc
   ∧ ∃ x, x ∈ B ∧ c * cs ≤ x < (c + 1) * cs)
  ∨ (chunk_body B cs acc c = acc
     ∧ RoaringBitmap.len (RoaringBitmap.clamp B (c * cs) ((c + 1) * cs)) = 0).
Proof.
  unfold chunk_body, RoaringBitmap.add.
  destruct (Z.eqb_spec
    (RoaringBitmap.len (RoaringBitmap.clamp B (c * cs) ((c + 1) * cs))) 0)
    as [E|E]; simpl.
  - by right.
  - left. split; [done|]. by apply len_clamp_pos.
Qed.

Lemma elem_of_chunk_fold (B : gset Z) cs l (acc : gset Z) c :
  c ∈ foldl (chunk_body B cs) acc l
  ↔ c ∈ acc ∨ (c ∈ l ∧ ∃ x, x ∈ B ∧ c * cs ≤ x < (c + 1) * cs).
Proof.
  revert acc. induction l as [|d l IH]; intros acc; simpl.
  - split; [by left|]. intros [?|[Hc _]]; [done|]. by apply elem_of_nil in Hc.
  - rewrite IH, elem_of_cons.
    destruct (chunk_body_cases B cs acc d) as [[-> Hd]|[-> Hd]].
    + rewrite elem_of_union, elem_of_singleton. split.
      * intros [[->|?]|[? ?]]; eauto.
      * intros [?|[[->|?] ?]]; eauto.
    + split.
      * intros [?|[? ?]]; eauto.
      * intros [?|[[->|?] Hx]]; eauto.
        destruct Hx as (x & Hx & Hr).
        rewrite len_clamp_zero in Hd. by destruct (Hd x Hx).
Qed.

Lemma elem_of_chunk_scan (B : gset Z) cs mcc c :
  c ∈ chunk_scan B cs mcc
  ↔ 0 ≤ c ≤ mcc ∧ ∃ x, x ∈ B ∧ c * cs ≤ x < (c + 1) * cs.
Proof.
  unfold chunk_scan. rewrite elem_of_chunk_fold, elem_of_range.
  split.
  - intros [Hc|[? ?]]; [by apply not_elem_of_empty in Hc|]. split; [lia|done].
  - intros [? ?]. right. split; [lia|done].
Qed.

(** The bytes below chunk [n] are covered by the chunks found so far. *)
Lemma chunk_scan_covers (B : gset Z) cs (n : nat) :
  1 ≤ cs →
  RoaringBitmap.len (RoaringBitmap.clamp B 0 (Z.of_nat n * cs))
  ≤ RoaringBitmap.len (chunk_scan B cs (Z.of_nat n - 1)) * cs.
Proof.
  intros Hcs. unfold chunk_scan.
  replace (Z.of_nat n - 1 + 1) with (Z.of_nat n) by lia.
  induction n as [|n IH].
  - rewrite range_empty by lia. cbn [foldl].
    pose proof (len_clamp_width B 0 (Z.of_nat 0 * cs)).
    unfold RoaringBitmap.len at 2. rewrite size_empty. lia.
  - replace (Z.of_nat (S n)) with (Z.of_nat n + 1) by lia.
    rewrite range_snoc by lia. rewrite foldl_app. cbn [foldl].
    set (acc := foldl (chunk_body B cs) ∅ (range 0 (Z.of_nat n))) in *.
    rewrite (len_clamp_split B 0 (Z.of_nat n * cs)) by nia.
    pose proof (len_clamp_width B (Z.of_nat n * cs) ((Z.of_nat n + 1) * cs)).
    destruct (chunk_body_cases B cs acc (Z.of_nat n)) as [[-> _]|[-> Hz]].
    + assert (Z.of_nat n ∉ acc) as Hfresh.
      { unfold acc. rewrite elem_of_chunk_fold, elem_of_range.
        intros [Hc|[? _]]; [by apply not_elem_of_empty in Hc|lia]. }
      unfold RoaringBitmap.len at 3.
      rewrite size_union by (apply disjoint_singleton_l; exact Hfresh).
      rewrite size_singleton. unfold RoaringBitmap.len in IH at 2. nia.
    + rewrite Hz. lia.
Qed.

(** C2: for a non-empty byte set and a chunk size of at least 2, the result
    is exactly the set of chunks [c] between 0 and [max(B) // chunk_size]
    that contain an executed byte; the loop runs over the candidates
    [range(0, max(B) // chunk_size + 1)] and no others.  For the bytes
    {0, 5, 31, 32} and chunks of 32 bytes the result is {0, 1}. *)
Theorem chunkmap_from_bytemap_exact (B : gset Z) (chunk_size : Z) :
  B ≠ ∅ → 2 ≤ chunk_size →
  (∃ m C,
     RoaringBitmap.max B = Ok m
     ∧ chunkmap_from_bytemap B chunk_size = Ok C
     ∧ C = foldl (chunk_body B chunk_size) ∅ (range 0 (m / chunk_size + 1))
     ∧ (∀ c, c ∈ range 0 (m / chunk_size + 1) ↔ 0 ≤ c ≤ m / chunk_size)
     ∧ (∀ c, c ∈ C ↔
          0 ≤ c ≤ m / chunk_size
          ∧ ∃ x, x ∈ B ∧ c * chunk_size ≤ x < (c + 1) * chunk_size))
  ∧ chunkmap_from_bytemap {[0; 5; 31; 32]} 32 = Ok {[0; 1]}.
Proof.
  intros HB Hcs. split; [|by vm_compute].
  destruct (max_nonempty B HB) as (m & Hm & _).
  exists m, (chunk_scan B chunk_size (m / chunk_size)).
  split; [done|]. split; [|split; [done|split]].
  - unfold chunkmap_from_bytemap. rewrite Hm. simpl.
    destruct (Z.eqb_spec chunk_size 0); [lia|].
    destruct (Z.eqb_spec chunk_size 1); [lia|done].
  - intros c. rewrite elem_of_range. lia.
  - intros c. apply elem_of_chunk_scan.
Qed.

Lemma chunkmap_from_bytemap_exact_witness :
  ∃ m C,
    RoaringBitmap.max {[3; 70]} = Ok m
    ∧ chunkmap_from_bytemap {[3; 70]} 32 = Ok C
    ∧ C = foldl (chunk_body {[3; 70]} 32) ∅ (range 0 (m / 32 + 1))
    ∧ (∀ c, c ∈ range 0 (m / 32 + 1) ↔ 0 ≤ c ≤ m / 32)
    ∧ (∀ c, c ∈ C ↔
         0 ≤ c ≤ m / 32 ∧ ∃ x, x ∈ ({[3; 70]} : gset Z) ∧ c * 32 ≤ x < (c + 1) * 32).
Proof.
  refine (proj1 (chunkmap_from_bytemap_exact {[3; 70]} 32 _ _)).
  - vm_compute. discriminate.
  - lia.
Defined.

(** The general path at chunk size 1 returns the byte set itself. *)
Lemma chunk_scan_one (B : gset Z) m :
  RoaringBitmap.wf B → RoaringBitmap.max B = Ok m → chunk_scan B 1 (m / 1) = B.
Proof.
  intros Hwf Hm. apply max_Ok in Hm as (_ & _ & Hmax).
  apply set_eq. intros c. rewrite elem_of_chunk_scan, Z.div_1_r. split.
  - intros (_ & x & Hx & Hc). by replace c with x by lia.
  - intros Hc. split.
    + specialize (Hwf c Hc). specialize (Hmax c Hc). lia.
    + exists c. split; [done|lia].
Qed.

(** C5, as the code has it: an empty byte set makes [bytemap.max()] raise
    before the chunk size is looked at. *)
Lemma chunkmap_from_bytemap_one_empty :
  chunkmap_from_bytemap ∅ 1 = Raise EmptyBitmapError
  ∧ chunkmap_from_bytemap ∅ 1 ≠ Ok ∅.
Proof. split; [reflexivity|discriminate]. Qed.

(** C5, amended: for a non-empty byte set, chunk size 1 returns the byte set
    unchanged, and this is what the scan of the general path computes. *)
Theorem chunkmap_from_bytemap_one (B : gset Z) :
  RoaringBitmap.wf B → B ≠ ∅ →
  chunkmap_from_bytemap B 1 = Ok B
  ∧ ∃ m, RoaringBitmap.max B = Ok m ∧ chunk_scan B 1 (m / 1) = B.
Proof.
  intros Hwf HB. destruct (max_nonempty B HB) as (m & Hm & _). split.
  - unfold chunkmap_from_bytemap. by rewrite Hm.
  - exists m. split; [done|]. by apply chunk_scan_one.
Qed.

Lemma singleton_wf (x : Z) : 0 ≤ x < 2 ^ 32 → RoaringBitmap.wf {[x]}.
Proof. intros Hx y Hy. apply elem_of_singleton in Hy as ->. exact Hx. Qed.

Lemma union_wf (X Y : gset Z) :
  RoaringBitmap.wf X → RoaringBitmap.wf Y → RoaringBitmap.wf (X ∪ Y).
Proof. intros HX HY x [?|?]%elem_of_union; auto. Qed.

Lemma chunkmap_from_bytemap_one_witness :
  chunkmap_from_bytemap {[3; 70]} 1 = Ok {[3; 70]}
  ∧ ∃ m, RoaringBitmap.max {[3; 70]} = Ok m ∧ chunk_scan {[3; 70]} 1 (m / 1) = {[3; 70]}.
Proof.
  apply (chunkmap_from_bytemap_one {[3; 70]}).
  - apply union_wf; apply singleton_wf; lia.
  - vm_compute. discriminate.
Defined.

(** C6: the chunks of a non-empty byte set cover at least as many bytes as
    were executed. *)
Theorem chunked_bytes_cover (B : gset Z) (s : Z) :
  RoaringBitmap.wf B → B ≠ ∅ → 1 ≤ s →
  ∃ C, chunkmap_from_bytemap B s = Ok C
       ∧ RoaringBitmap.len C * s >= RoaringBitmap.len B.
Proof.
  intros Hwf HB Hs. destruct (max_nonempty B HB) as (m & Hm & Hin & Hmax).
  unfold chunkmap_from_bytemap. rewrite Hm. simpl.
  destruct (Z.eqb_spec s 0); [lia|].
  destruct (Z.eqb_spec s 1) as [->|Hs1].
  - exists B. split; [done|lia].
  - eexists. split; [done|].
    pose proof (Hwf m Hin) as Hm0.
    assert (0 ≤ m / s) as Hq by (apply Z.div_pos; lia).
    pose proof (chunk_scan_covers B s (Z.to_nat (m / s + 1)) Hs) as Hc.
    rewrite Z2Nat.id in Hc by lia.
    replace (m / s + 1 - 1) with (m / s) in Hc by lia.
    rewrite clamp_all in Hc; [lia|].
    intros x Hx. specialize (Hwf x Hx). specialize (Hmax x Hx).
    pose proof (Z.div_mod m s ltac:(lia)).
    pose proof (Z.mod_pos_bound m s ltac:(lia)). nia.
Qed.

Lemma chunked_bytes_cover_witness :
  ∃ C, chunkmap_from_bytemap {[3; 70]} 32 = Ok C
       ∧ RoaringBitmap.len C * 32 >= RoaringBitmap.len {[3; 70]}.
Proof.
  apply (chunked_bytes_cover {[3; 70]} 32).
  - apply union_wf; apply singleton_wf; lia.
  - vm_compute. discriminate.
  - lia.
Defined.

(** ** merklize: one level *)

(** Drawing only writes to the file. *)
Lemma draw_sibling_frame parent lo st s :
  ∃ d, draw_sibling parent lo st s
       = Locals (current_level st) (num_hashes st) (theoretical_siblings st)
                (map st) (parents st) (p st) d (levels st).
Proof.
  unfold draw_sibling. destruct st as [cl nh ts M ps pv d ls]. simpl.
  destruct (lo =? 0); [by eexists|].
  destruct (negb _); [by eexists|].
  destruct (cl =? 0); by eexists.
Qed.

Lemma draw_frame parent lo l st :
  ∃ d, foldl (draw_sibling parent lo) st l
       = Locals (current_level st) (num_hashes st) (theoretical_siblings st)
                (map st) (parents st) (p st) d (levels st).
Proof.
  revert st. induction l as [|s l IH]; intros st; simpl.
  - exists (dotfile st). by destruct st.
  - destruct (draw_sibling_frame parent lo st s) as [d ->].
    destruct (IH (Locals (current_level st) (num_hashes st)
                         (theoretical_siblings st) (map st) (parents st)
                         (p st) d (levels st))) as [d' ->].
    by exists d'.
Qed.

(** What one iteration of the [for p] loop does. *)
Lemma parent_body_cases fn a mx st v :
  ∃ d, (fn = None → d = dotfile st) ∧
    parent_body fn a mx st v =
      if decide (group_len (map st) a (theoretical_siblings st) v = 0) then
        Ok (Locals (current_level st) (num_hashes st) (theoretical_siblings st)
                   (map st) (parents st) (Some v) d (levels st))
      else if decide (v < mx) then
        Ok (Locals (current_level st)
                   (num_hashes st
                    + (a - group_len (map st) a (theoretical_siblings st) v))
                   (theoretical_siblings st) (map st) (parents st ++ [v])
                   (Some v) d (levels st))
      else Raise AssertionError.
Proof.
  unfold parent_body, group_len, bind_p.
  destruct st as [cl nh ts M ps pv d ls]. cbn [current_level num_hashes
    theoretical_siblings map parents p dotfile levels].
  set (lo := RoaringBitmap.len _).
  set (st0 := Locals cl nh ts M ps (Some v) d ls).
  assert (∃ d', (fn = None → d' = d) ∧
            match fn with
            | Some _ => foldl (draw_sibling (node_label (cl + 1) v) lo) st0
                              (range (v * a) (Z.min ((v + 1) * a) ts))
            | None => st0
            end = Locals cl nh ts M ps (Some v) d' ls) as (d' & Hd' & ->).
  { destruct fn as [f|].
    - destruct (draw_frame (node_label (cl + 1) v) lo
                  (range (v * a) (Z.min ((v + 1) * a) ts)) st0) as [d' ->].
      exists d'. by split.
    - exists d. by split. }
  exists d'. split; [done|].
  destruct (Z.eqb_spec lo 0) as [E|E].
  - by rewrite decide_True.
  - rewrite decide_False by done. unfold assert.
    destruct (Z.ltb_spec v mx).
    + by rewrite decide_True.
    + rewrite decide_False by lia. done.
Qed.

Lemma present_parents_cons M a ts v l :
  present_parents M a ts (v :: l)
  = if decide (group_len M a ts v = 0) then present_parents M a ts l
    else v :: present_parents M a ts l.
Proof.
  unfold present_parents. rewrite filter_cons.
  destruct (decide (group_len M a ts v = 0)).
  - by rewrite decide_False by tauto.
  - by rewrite decide_True.
Qed.

Lemma missing_hashes_cons M a ts v l :
  missing_hashes M a ts (v :: l)
  = if decide (group_len M a ts v = 0) then missing_hashes M a ts l
    else (a - group_len M a ts v) + missing_hashes M a ts l.
Proof.
  unfold missing_hashes. rewrite present_parents_cons.
  by destruct (decide (group_len M a ts v = 0)).
Qed.

Lemma last_bound_cons p0 v l : last_bound p0 (v :: l) = last_bound (Some v) l.
Proof.
  unfold last_bound. destruct l as [|w l]; [done|]. rewrite last_cons_cons.
  destruct (last (w :: l)) eqn:E; [done|]. by apply last_None in E.
Qed.

(** The [for p] loop: either every candidate with a sibling present passes
    the sanity check and the loop ends in the state below, or one does not
    and the assertion fails. *)
Lemma for_each_parent_body fn a mx cands st :
  (∃ d, (fn = None → d = dotfile st) ∧
     for_each (parent_body fn a mx) st cands
     = Ok (Locals (current_level st)
             (num_hashes st
              + missing_hashes (map st) a (theoretical_siblings st) cands)
             (theoretical_siblings st) (map st)
             (parents st
              ++ present_parents (map st) a (theoretical_siblings st) cands)
             (last_bound (p st) cands) d (levels st)))
  ∨ (for_each (parent_body fn a mx) st cands = Raise AssertionError
     ∧ ∃ v, v ∈ cands
            ∧ group_len (map st) a (theoretical_siblings st) v ≠ 0 ∧ mx ≤ v).
Proof.
  revert st. induction cands as [|v l IH]; intros st.
  - left. exists (dotfile st). split; [done|]. destruct st. simpl.
    unfold missing_hashes, present_parents. simpl.
    by rewrite Z.add_0_r, app_nil_r.
  - cbn [for_each].
    destruct (parent_body_cases fn a mx st v) as (d & Hd & ->).
    rewrite present_parents_cons, missing_hashes_cons, last_bound_cons.
    destruct (decide (group_len (map st) a (theoretical_siblings st) v = 0))
      as [E|E].
    + simpl. match goal with |- context [for_each _ ?s l] =>
        destruct (IH s) as [(d' & Hd' & ->)|(-> & w & Hw & ? & ?)] end.
      * left. exists d'. split; [|done]. intros ->. simpl in Hd'. rewrite Hd' by done. auto.
      * right. split; [done|]. exists w. split; [by right|done].
    + destruct (decide (v < mx)).
      * simpl. match goal with |- context [for_each _ ?s l] =>
          destruct (IH s) as [(d' & Hd' & ->)|(-> & w & Hw & ? & ?)] end.
        -- left. exists d'. split.
           ++ intros ->. simpl in Hd'. rewrite Hd' by done. auto.
           ++ simpl. do 2 f_equal; [lia|by rewrite <- app_assoc].
        -- right. split; [done|]. exists w. split; [by right|done].
      * right. split; [done|]. exists v. split; [left|]. split; [done|lia].
Qed.

(** A parent with a sibling present lies below [max_actual_parents]: the
    sanity check of the loop cannot fail. *)
Lemma group_present_lt (M : gset Z) a ts m v :
  1 ≤ a → (∀ x, x ∈ M → x ≤ m) →
  group_len M a ts v ≠ 0 → v < ceil_div (m + 1) a.
Proof.
  intros Ha Hmax Hg. unfold group_len in Hg.
  apply len_clamp_pos in Hg as (x & Hx & Hr). specialize (Hmax x Hx).
  pose proof (ceil_div_bounds (m + 1) a ltac:(lia)). nia.
Qed.

Lemma present_parents_app M a ts l1 l2 :
  present_parents M a ts (l1 ++ l2)
  = present_parents M a ts l1 ++ present_parents M a ts l2.
Proof. unfold present_parents. apply filter_app. Qed.

Lemma present_parents_nil (M : gset Z) a ts l :
  (∀ v, v ∈ l → group_len M a ts v = 0) → present_parents M a ts l = [].
Proof.
  induction l as [|v l IH]; intros H; [done|].
  rewrite present_parents_cons, decide_True by (apply H; left).
  apply IH. intros w Hw. apply H. by right.
Qed.

Lemma elem_of_present_parents (M : gset Z) a ts l v :
  v ∈ present_parents M a ts l ↔ group_len M a ts v ≠ 0 ∧ v ∈ l.
Proof. unfold present_parents. by rewrite list_elem_of_filter. Qed.

(** Scanning up to the theoretical width finds the same parents as scanning
    up to [max_actual_parents]. *)
Lemma present_parents_dense (M : gset Z) a ts m n :
  1 ≤ a → 0 ≤ m → (∀ x, x ∈ M → x ≤ m) → ceil_div (m + 1) a ≤ n →
  present_parents M a ts (range 0 n)
  = present_parents M a ts (range 0 (ceil_div (m + 1) a)).
Proof.
  intros Ha Hm Hmax Hn.
  pose proof (ceil_div_bounds (m + 1) a ltac:(lia)).
  rewrite (range_split 0 (ceil_div (m + 1) a) n) by nia.
  rewrite present_parents_app, (present_parents_nil _ _ _ (range _ n)).
  - by rewrite app_nil_r.
  - intros v Hv%elem_of_range.
    destruct (decide (group_len M a ts v = 0)) as [|Hg]; [done|].
    pose proof (group_present_lt M a ts m v Ha Hmax Hg). lia.
Qed.

Lemma last_bound_range p0 n : 1 ≤ n → last_bound p0 (range 0 n) = Some (n - 1).
Proof.
  intros Hn. replace n with ((n - 1) + 1) at 1 by lia.
  rewrite range_snoc by lia. unfold last_bound. by rewrite last_snoc.
Qed.

(** One iteration of the [while] loop, from a state that satisfies the
    invariant: the result does not depend on [filename] but for the file
    and the value left in [p]. *)
Lemma level_body_canon fn a st :
  2 ≤ a → level_inv st → a ≤ theoretical_siblings st →
  ∃ d pv,
    level_body fn a st
    = Ok (Locals (current_level st + 1)
            (num_hashes st + level_missing (map st) a (theoretical_siblings st))
            (ceil_div (theoretical_siblings st) a)
            (RoaringBitmap.of_list
               (level_parents (map st) a (theoretical_siblings st)))
            (level_parents (map st) a (theoretical_siblings st))
            (Some pv) d
            (levels st ++ [level_parents (map st) a (theoretical_siblings st)])).
Proof.
  intros Ha [Hne Hin] Hts.
  destruct (max_nonempty _ Hne) as (m & Hm & Hmin & Hmax).
  pose proof (Hin m Hmin) as Hmr.
  pose proof (ceil_div_bounds (m + 1) a ltac:(lia)) as Hma.
  pose proof (ceil_div_mono (m + 1) (theoretical_siblings st) a
                ltac:(lia) ltac:(lia)) as Hle.
  pose proof (ceil_div_lt (theoretical_siblings st) a Ha Hts) as Htp.
  unfold level_body. cbn [map theoretical_siblings]. rewrite Hm. cbn [mbind result_bind].
  set (n := match fn with
            | Some _ => ceil_div (theoretical_siblings st) a
            | None => ceil_div (m + 1) a
            end).
  assert (1 ≤ n ∧ ceil_div (m + 1) a ≤ n) as [Hn1 Hn2].
  { unfold n. destruct fn; nia. }
  match goal with |- context [for_each ?b ?s ?l] =>
    destruct (for_each_parent_body fn a (ceil_div (m + 1) a) l s)
      as [(d & _ & ->)|(_ & v & _ & Hg & Hv)] end.
  - cbn [current_level num_hashes theoretical_siblings map parents p dotfile
         levels]. rewrite last_bound_range by done.
    exists d, (n - 1). cbn [app].
    unfold level_parents, level_missing, missing_hashes.
    rewrite (present_parents_dense _ a _ m n) by (done || lia).
    rewrite (present_parents_dense _ a _ m
               (ceil_div (theoretical_siblings st) a)) by (done || lia).
    done.
  - cbn [map theoretical_siblings] in Hg.
    pose proof (group_present_lt _ a _ m v ltac:(lia) Hmax Hg). lia.
Qed.

(** The general form of one iteration, from any state: the only exceptions
    are the error of [max()] on an empty level and a failed sanity check. *)
Lemma level_body_cases fn a st :
  level_body fn a st = Raise EmptyBitmapError
  ∨ level_body fn a st = Raise AssertionError
  ∨ ∃ m d,
      RoaringBitmap.max (map st) = Ok m ∧
      let n := match fn with
               | Some _ => ceil_div (theoretical_siblings st) a
               | None => ceil_div (m + 1) a
               end in
      let ps := present_parents (map st) a (theoretical_siblings st) (range 0 n) in
      level_body fn a st
      = Ok (Locals (current_level st + 1)
              (num_hashes st
               + missing_hashes (map st) a (theoretical_siblings st) (range 0 n))
              (ceil_div (theoretical_siblings st) a)
              (RoaringBitmap.of_list ps) ps
              (last_bound (p st) (range 0 n)) d (levels st ++ [ps])).
Proof.
  unfold level_body. cbn [map theoretical_siblings].
  destruct (max_cases (map st)) as [[_ ->]|(m & Hm & _)]; [by left|].
  rewrite Hm. cbn [mbind result_bind]. right.
  match goal with |- context [for_each ?b ?s ?l] =>
    destruct (for_each_parent_body fn a (ceil_div (m + 1) a) l s)
      as [(d & _ & ->)|(-> & _)] end; [right|by left].
  exists m, d. split; [done|]. reflexivity.
Qed.

Lemma level_parents_inv (M : gset Z) a ts :
  2 ≤ a → M ≠ ∅ → (∀ x, x ∈ M → 0 ≤ x < ts) →
  RoaringBitmap.of_list (level_parents M a ts) ≠ ∅
  ∧ ∀ v, v ∈ RoaringBitmap.of_list (level_parents M a ts)
         → 0 ≤ v < ceil_div ts a.
Proof.
  intros Ha Hne Hin. unfold RoaringBitmap.of_list, level_parents. split.
  - destruct (max_nonempty M Hne) as (m & _ & Hm & _).
    pose proof (Hin m Hm) as Hmr.
    pose proof (ceil_div_bounds ts a ltac:(lia)).
    pose proof (Z.div_mod m a ltac:(lia)).
    pose proof (Z.mod_pos_bound m a ltac:(lia)).
    assert (0 ≤ m / a) by (apply Z.div_pos; lia).
    assert (m / a ∈ (list_to_set (present_parents M a ts
                       (range 0 (ceil_div ts a))) : gset Z)) as Hv.
    { rewrite elem_of_list_to_set, elem_of_present_parents, elem_of_range.
      split; [|nia]. unfold group_len. apply len_clamp_pos.
      exists m. split; [done|nia]. }
    intros HE. rewrite HE in Hv. by apply not_elem_of_empty in Hv.
  - intros v. rewrite elem_of_list_to_set, elem_of_present_parents, elem_of_range.
    tauto.
Qed.

(** ** Counting *)

Lemma group_len_bounds (M : gset Z) a ts v : 0 ≤ a → 0 ≤ group_len M a ts v ≤ a.
Proof.
  intros Ha. unfold group_len. split; [apply len_nonneg|].
  etrans; [apply len_clamp_width|]. lia.
Qed.

Lemma missing_hashes_bounds (M : gset Z) a ts l :
  1 ≤ a →
  0 ≤ missing_hashes M a ts l
    ≤ (a - 1) * Z.of_nat (length (present_parents M a ts l)).
Proof.
  intros Ha. induction l as [|v l IH].
  - unfold missing_hashes, present_parents. simpl. lia.
  - rewrite missing_hashes_cons, present_parents_cons.
    pose proof (group_len_bounds M a ts v ltac:(lia)).
    destruct (decide (group_len M a ts v = 0)); [done|].
    cbn [length]. nia.
Qed.

(** Each parent takes its siblings from its own part of the level, so there
    are no more parents below [n] than elements below [n * arity]. *)
Lemma present_parents_length (M : gset Z) a ts (n : nat) :
  1 ≤ a →
  Z.of_nat (length (present_parents M a ts (range 0 (Z.of_nat n))))
  ≤ RoaringBitmap.len (RoaringBitmap.clamp M 0 (Z.of_nat n * a)).
Proof.
  intros Ha. induction n as [|n IH].
  - rewrite range_empty by lia. cbn. apply len_nonneg.
  - replace (Z.of_nat (S n)) with (Z.of_nat n + 1) by lia.
    rewrite range_snoc, present_parents_app, length_app by lia.
    rewrite (len_clamp_split M 0 (Z.of_nat n * a)) by nia.
    rewrite present_parents_cons.
    change (present_parents M a ts []) with (@nil Z).
    assert (group_len M a ts (Z.of_nat n)
            ≤ RoaringBitmap.len
                (RoaringBitmap.clamp M (Z.of_nat n * a) ((Z.of_nat n + 1) * a)))
      as Hg.
    { unfold group_len. apply len_mono. intros x.
      rewrite !elem_of_clamp. intros [? ?]. split; [lia|done]. }
    pose proof (group_len_bounds M a ts (Z.of_nat n) ltac:(lia)).
    destruct (decide (group_len M a ts (Z.of_nat n) = 0)); cbn [length]; lia.
Qed.

Lemma present_parents_le_len (M : gset Z) a ts n :
  1 ≤ a →
  Z.of_nat (length (present_parents M a ts (range 0 n))) ≤ RoaringBitmap.len M.
Proof.
  intros Ha. destruct (decide (0 ≤ n)) as [Hn|Hn].
  - rewrite <- (Z2Nat.id n) by done.
    etrans; [by apply present_parents_length|apply len_clamp_le].
  - rewrite range_empty by lia. cbn. apply len_nonneg.
Qed.

Lemma len_of_list (l : list Z) :
  RoaringBitmap.len (RoaringBitmap.of_list l) ≤ Z.of_nat (length l).
Proof.
  unfold RoaringBitmap.len, RoaringBitmap.of_list.
  induction l as [|x l IH]; [by rewrite list_to_set_nil, size_empty|].
  rewrite list_to_set_cons, size_union_alt, size_singleton. cbn [length].
  assert (size ((list_to_set l : gset Z) ∖ {[x]}) ≤ size (list_to_set l : gset Z))%nat
    by (apply subseteq_size; intros y [? _]%elem_of_difference; done).
  lia.
Qed.

(** ** The number of levels *)

Lemma ceil_log_from_spec fuel a n pow L :
  2 ≤ a → 0 ≤ L → pow = a ^ L →
  (∀ L', 0 ≤ L' < L → a ^ L' < n) →
  n - pow ≤ Z.of_nat fuel →
  L ≤ ceil_log_from fuel a n pow L
  ∧ n ≤ a ^ ceil_log_from fuel a n pow L
  ∧ ∀ L', 0 ≤ L' < ceil_log_from fuel a n pow L → a ^ L' < n.
Proof.
  intros Ha. revert pow L.
  induction fuel as [|fuel IH]; intros pow L HL Hpow Hlow Hfuel; cbn [ceil_log_from].
  - destruct (Z.leb_spec n pow); [|lia]. subst pow. auto with lia.
  - destruct (Z.leb_spec n pow) as [Hn|Hn]; [subst pow; auto with lia|].
    assert (1 ≤ pow) by (subst pow; apply Z.lt_pred_le, Z.pow_pos_nonneg; lia).
    destruct (IH (pow * a) (L + 1)) as (H1 & H2 & H3).
    + lia.
    + subst pow. rewrite Z.pow_add_r by lia. by rewrite Z.pow_1_r.
    + intros L' HL'. destruct (decide (L' = L)) as [->|]; [lia|].
      apply Hlow. lia.
    + nia.
    + split; [lia|]. by split.
Qed.

(** [ceil_log arity n] is the least [L] with [n ≤ arity ^ L]. *)
Lemma ceil_log_spec a n :
  2 ≤ a → 1 ≤ n →
  0 ≤ ceil_log a n
  ∧ n ≤ a ^ ceil_log a n
  ∧ ∀ L, 0 ≤ L < ceil_log a n → a ^ L < n.
Proof.
  intros Ha Hn. unfold ceil_log.
  apply (ceil_log_from_spec (Z.to_nat n) a n 1 0); [done|done|done|lia|lia].
Qed.

(** ** merklize: the loop over the levels *)

(** The theoretical width strictly decreases, so a fuel of at least the
    width is never used up; when the loop exits, the width is below the
    arity. *)
Lemma level_loop_exits fuel fn a st :
  2 ≤ a → theoretical_siblings st ≤ Z.of_nat fuel →
  level_loop fuel fn a st ≠ OutOfFuel
  ∧ ∀ st', level_loop fuel fn a st = Ok st' → theoretical_siblings st' < a.
Proof.
  intros Ha. revert st. induction fuel as [|fuel IH]; intros st Hfuel;
    cbn [level_loop]; destruct (Z.leb_spec a (theoretical_siblings st)) as [Hts|Hts];
    try lia; try (split; [done|by intros ? [= <-]]).
  destruct (level_body_cases fn a st) as [->|[->|(m & d & _ & ->)]];
    [done|done|]. cbn [mbind result_bind]. apply IH.
  cbn [theoretical_siblings].
  pose proof (ceil_div_lt (theoretical_siblings st) a Ha Hts). lia.
Qed.

(** More fuel than the width changes nothing. *)
Lemma level_loop_fuel fuel fuel' fn a st :
  2 ≤ a → theoretical_siblings st ≤ Z.of_nat fuel →
  theoretical_siblings st ≤ Z.of_nat fuel' →
  level_loop fuel fn a st = level_loop fuel' fn a st.
Proof.
  intros Ha. revert fuel' st.
  induction fuel as [|fuel IH]; intros [|fuel'] st Hf Hf'; cbn [level_loop];
    destruct (Z.leb_spec a (theoretical_siblings st)) as [Hts|Hts]; try lia; try done.
  destruct (level_body_cases fn a st) as [->|[->|(m & d & _ & ->)]];
    [done|done|]. cbn [mbind result_bind]. apply IH; cbn [theoretical_siblings];
    pose proof (ceil_div_lt (theoretical_siblings st) a Ha Hts); lia.
Qed.

Lemma ceil_div_pow a ts L :
  2 ≤ a → a ≤ ts → 0 ≤ L → ts ≤ a ^ L → 1 ≤ L ∧ ceil_div ts a ≤ a ^ (L - 1).
Proof.
  intros Ha Hts HL Hpow.
  assert (1 ≤ L) as HL1.
  { destruct (decide (L = 0)) as [->|]; [|lia]. rewrite Z.pow_0_r in Hpow. lia. }
  split; [done|].
  replace L with ((L - 1) + 1) in Hpow by lia.
  rewrite Z.pow_add_r, Z.pow_1_r in Hpow by lia.
  pose proof (ceil_div_bounds ts a ltac:(lia)). nia.
Qed.

(** From a state that satisfies the invariant the loop returns; every level
    adds between 0 and [(arity - 1) * len(map)] hashes, and the levels do
    not grow. *)
Lemma level_loop_returns fuel fn a st L :
  2 ≤ a → level_inv st → theoretical_siblings st ≤ Z.of_nat fuel →
  0 ≤ L → theoretical_siblings st ≤ a ^ L →
  ∃ st', level_loop fuel fn a st = Ok st'
    ∧ num_hashes st ≤ num_hashes st'
      ≤ num_hashes st + RoaringBitmap.len (map st) * (a - 1) * L
    ∧ (a ≤ theoretical_siblings st ∨ is_Some (p st) → is_Some (p st')).
Proof.
  intros Ha. revert st L.
  induction fuel as [|fuel IH]; intros st L Hinv Hfuel HL Hpow;
    cbn [level_loop]; destruct (Z.leb_spec a (theoretical_siblings st)) as [Hts|Hts];
    try lia.
  - exists st. pose proof (len_nonneg (map st)). split; [done|].
    assert (0 ≤ RoaringBitmap.len (map st) * (a - 1) * L)
      by (repeat apply Z.mul_nonneg_nonneg; lia).
    split; [lia|]. intros [?|?]; [lia|done].
  - destruct (level_body_canon fn a st Ha Hinv Hts) as (d & pv & ->).
    cbn [mbind result_bind].
    destruct Hinv as [Hne Hin].
    destruct (ceil_div_pow a _ L Ha Hts HL Hpow) as [HL1 Hpow'].
    destruct (level_parents_inv _ a _ Ha Hne Hin) as [Hne' Hin'].
    pose proof (ceil_div_lt (theoretical_siblings st) a Ha Hts).
    match goal with |- context [level_loop fuel fn a ?s] =>
      destruct (IH s (L - 1)) as (st' & -> & Hnh & Hp) end;
      cbn [map theoretical_siblings num_hashes p] in *; try done; try lia.
    exists st'. split; [done|]. split; [|intros _; apply Hp; by right].
    pose proof (missing_hashes_bounds (map st) a (theoretical_siblings st)
                  (range 0 (ceil_div (theoretical_siblings st) a)) ltac:(lia)).
    pose proof (present_parents_le_len (map st) a (theoretical_siblings st)
                  (ceil_div (theoretical_siblings st) a) ltac:(lia)).
    pose proof (len_of_list (level_parents (map st) a (theoretical_siblings st))).
    pose proof (len_nonneg (RoaringBitmap.of_list
                  (level_parents (map st) a (theoretical_siblings st)))).
    unfold level_missing, level_parents in *.
    set (nm := missing_hashes _ _ _ _) in *.
    set (np := Z.of_nat (length _)) in *.
    set (l1 := RoaringBitmap.len (RoaringBitmap.of_list _)) in *.
    set (l0 := RoaringBitmap.len (map st)) in *.
    clearbody nm np l1 l0.
    replace (l0 * (a - 1) * L)
      with ((a - 1) * l0 + l0 * ((a - 1) * (L - 1))) by ring.
    replace (l1 * (a - 1) * (L - 1))
      with (l1 * ((a - 1) * (L - 1))) in Hnh by ring.
    assert (0 ≤ (a - 1) * (L - 1)) by nia.
    assert (l1 * ((a - 1) * (L - 1)) ≤ l0 * ((a - 1) * (L - 1)))
      by (apply Z.mul_le_mono_nonneg_r; lia).
    assert ((a - 1) * np ≤ (a - 1) * l0)
      by (apply Z.mul_le_mono_nonneg_l; lia).
    lia.
  - exists st. pose proof (len_nonneg (map st)). split; [done|].
    assert (0 ≤ RoaringBitmap.len (map st) * (a - 1) * L)
      by (repeat apply Z.mul_nonneg_nonneg; lia).
    split; [lia|]. intros [?|?]; [lia|done].
Qed.

(** Two runs of the loop from states with the same core, with or without a
    file, end in states with the same core. *)
Lemma level_loop_core fuel fn1 fn2 a st1 st2 :
  2 ≤ a → level_inv st1 → core st1 = core st2 →
  theoretical_siblings st1 ≤ Z.of_nat fuel →
  ∃ st1' st2',
    level_loop fuel fn1 a st1 = Ok st1'
    ∧ level_loop fuel fn2 a st2 = Ok st2'
    ∧ core st1' = core st2'.
Proof.
  intros Ha. revert st1 st2.
  induction fuel as [|fuel IH]; intros st1 st2 Hinv Hcore Hfuel;
    pose proof Hcore as Hc; unfold core in Hc;
    injection Hc as Hcl Hnh Hts HM Hps Hls Hp;
    assert (level_inv st2) as Hinv2
      by (unfold level_inv; rewrite <- HM, <- Hts; exact Hinv);
    cbn [level_loop]; rewrite <- Hts;
    destruct (Z.leb_spec a (theoretical_siblings st1)) as [Hge|Hlt];
    try lia; try (by exists st1, st2).
  destruct (level_body_canon fn1 a st1 Ha Hinv Hge) as (d1 & pv1 & ->).
  destruct (level_body_canon fn2 a st2 Ha Hinv2 ltac:(lia)) as (d2 & pv2 & ->).
  cbn [mbind result_bind]. apply IH.
  - destruct Hinv as [Hne Hin].
    destruct (level_parents_inv _ a _ Ha Hne Hin) as [Hne' Hin']. by split.
  - unfold core. cbn [current_level num_hashes theoretical_siblings map
      parents p levels]. by rewrite Hcl, Hnh, Hts, HM, Hls.
  - cbn [theoretical_siblings].
    pose proof (ceil_div_lt (theoretical_siblings st1) a Ha Hge). lia.
Qed.

(** ** merklize *)

(** What is left of [merklize_run] once the checks before the loop have
    passed. *)
Lemma merklize_run_checked cm a mtc fn m :
  2 ≤ a → 1 ≤ mtc → RoaringBitmap.max cm = Ok m → m < mtc →
  merklize_run cm a mtc fn
  = (st ← level_loop (Z.to_nat mtc) fn a
            (Locals 0 0 mtc cm [] None
               match fn with
               | Some _ => ["graph  {" +:+ newline]
               | None => []
               end []);
     v ← match p st with
         | Some v => Ok v
         | None => Raise UnboundLocalError
         end;
     Ok match fn with
        | Some _ =>
            write "}" (write (node_label (current_level st) v
                              +:+ filled "gray70") st)
        | None => st
        end).
Proof.
  intros Ha Hmtc Hm Hlt. unfold merklize_run, math_log_check, assert.
  destruct (Z.ltb_spec 0 mtc); [|lia].
  destruct (Z.ltb_spec 0 a); [|lia].
  destruct (Z.eqb_spec a 1); [lia|].
  rewrite Hm. cbn [mbind result_bind].
  destruct (Z.ltb_spec m mtc); [|lia]. reflexivity.
Qed.

Lemma initial_inv cm mtc m d :
  RoaringBitmap.wf cm → RoaringBitmap.max cm = Ok m → m < mtc →
  level_inv (Locals 0 0 mtc cm [] None d []).
Proof.
  intros Hwf Hm Hlt. apply max_Ok in Hm as (Hne & _ & Hmax).
  split; [done|]. cbn [map theoretical_siblings]. intros x Hx.
  specialize (Hwf x Hx). specialize (Hmax x Hx). lia.
Qed.

Lemma write_num_hashes line st : num_hashes (write line st) = num_hashes st.
Proof. by destruct st. Qed.

(** The full run on a valid input with at least one level. *)
Lemma merklize_run_returns cm a mtc fn m :
  RoaringBitmap.wf cm → 2 ≤ a → RoaringBitmap.max cm = Ok m → m < mtc →
  a ≤ mtc →
  ∃ st, merklize_run cm a mtc fn = Ok st
        ∧ 0 ≤ num_hashes st
            ≤ RoaringBitmap.len cm * (a - 1) * ceil_log a mtc.
Proof.
  intros Hwf Ha Hm Hlt Hge.
  rewrite (merklize_run_checked cm a mtc fn m) by (done || lia).
  destruct (ceil_log_spec a mtc Ha ltac:(lia)) as (HL & Hpow & _).
  match goal with |- context [level_loop _ fn a ?s] =>
    destruct (level_loop_returns (Z.to_nat mtc) fn a s (ceil_log a mtc))
      as (st & -> & Hnh & Hp) end;
    cbn [theoretical_siblings map num_hashes] in *; try done; try lia.
  { by apply (initial_inv cm mtc m). }
  cbn [mbind result_bind].
  destruct Hp as [v Hv]; [by left|]. rewrite Hv. cbn [mbind result_bind].
  eexists. split; [done|]. destruct fn; [rewrite !write_num_hashes|]; lia.
Qed.

Lemma merklize_of_run cm a mtc fn st :
  merklize_run cm a mtc fn = Ok st → merklize cm a mtc fn = Ok (num_hashes st).
Proof. intros H. unfold merklize. by rewrite H. Qed.

(** C1, as the code has it: on an empty chunk set the assertion of line 82
    calls [max()], which raises; the function does not return 0. *)
Lemma merklize_empty_fails :
  merklize ∅ 2 4 None = Raise EmptyBitmapError
  ∧ merklize ∅ 2 4 None ≠ Ok 0
  ∧ ¬ (fails (merklize ∅ 2 4 None)
       ↔ (∅ : gset Z) ≠ ∅ ∧ ∃ m, RoaringBitmap.max ∅ = Ok m ∧ 4 ≤ m).
Proof.
  split; [reflexivity|]. split; [discriminate|].
  intros [Hf _]. destruct Hf as [HE _]; [by exists EmptyBitmapError|]. by apply HE.
Qed.

(** C1, amended: for an arity of at least 2 and a bound of at least the arity
    (so that the loop runs) and below 2^53 (so that its float divisions are
    exact), [merklize] fails if and only if the chunk set is empty or its
    maximum is not below the bound, and returns otherwise.  The empty chunk
    set raises the error of [max()], a maximum that is not below the bound
    fails the assertion, both for every bound of at least 1. *)
Theorem merklize_fails_iff (cm : gset Z) (a mtc : Z) (fn : option string) :
  RoaringBitmap.wf cm → 2 ≤ a → 1 ≤ mtc →
  (a ≤ mtc → mtc < 2 ^ 53 →
     (fails (merklize cm a mtc fn)
      ↔ cm = ∅ ∨ ∃ m, RoaringBitmap.max cm = Ok m ∧ mtc ≤ m)
     ∧ (¬ fails (merklize cm a mtc fn) → returns (merklize cm a mtc fn)))
  ∧ (cm = ∅ → merklize cm a mtc fn = Raise EmptyBitmapError)
  ∧ (∀ m, RoaringBitmap.max cm = Ok m → mtc ≤ m →
       merklize cm a mtc fn = Raise AssertionError).
Proof.
  intros Hwf Ha Hmtc.
  assert (cm = ∅ → merklize cm a mtc fn = Raise EmptyBitmapError) as Hempty.
  { intros ->. unfold merklize, merklize_run, math_log_check.
    destruct (Z.ltb_spec 0 mtc); [|lia]. destruct (Z.ltb_spec 0 a); [|lia].
    destruct (Z.eqb_spec a 1); [lia|]. reflexivity. }
  assert (∀ m, RoaringBitmap.max cm = Ok m → mtc ≤ m →
            merklize cm a mtc fn = Raise AssertionError) as Hassert.
  { intros m Hm Hle. unfold merklize, merklize_run, math_log_check, assert.
    destruct (Z.ltb_spec 0 mtc); [|lia]. destruct (Z.ltb_spec 0 a); [|lia].
    destruct (Z.eqb_spec a 1); [lia|]. rewrite Hm. cbn [mbind result_bind].
    destruct (Z.ltb_spec m mtc); [lia|]. reflexivity. }
  split; [|by split]. intros Hge _.
  destruct (max_cases cm) as [[HE _]|(m & Hm & Hne & _)].
  - split; [|intros Hnf; destruct Hnf; rewrite Hempty by done; by eexists].
    split; [by left|]. intros _. rewrite Hempty by done. by eexists.
  - destruct (decide (mtc ≤ m)) as [Hle|Hlt].
    + split; [|intros Hnf; destruct Hnf; rewrite (Hassert m) by done; by eexists].
      split; [right; by exists m|]. intros _. rewrite (Hassert m) by done.
      by eexists.
    + destruct (merklize_run_returns cm a mtc fn m) as (st & Hst & _);
        try done; try lia.
      apply merklize_of_run in Hst. split; [|intros _; by eexists]. split.
      * intros [e He]. by rewrite Hst in He.
      * intros [->|(m' & Hm' & Hle)]; [done|].
        rewrite Hm in Hm'. injection Hm' as <-. lia.
Qed.

Lemma merklize_fails_iff_witness :
  (2 ≤ 4 → 4 < 2 ^ 53 →
     (fails (merklize {[0; 1]} 2 4 None)
      ↔ ({[0; 1]} : gset Z) = ∅ ∨ ∃ m, RoaringBitmap.max {[0; 1]} = Ok m ∧ 4 ≤ m)
     ∧ (¬ fails (merklize {[0; 1]} 2 4 None) → returns (merklize {[0; 1]} 2 4 None)))
  ∧ (({[0; 1]} : gset Z) = ∅ → merklize {[0; 1]} 2 4 None = Raise EmptyBitmapError)
  ∧ (∀ m, RoaringBitmap.max {[0; 1]} = Ok m → 4 ≤ m →
       merklize {[0; 1]} 2 4 None = Raise AssertionError).
Proof.
  apply (merklize_fails_iff {[0; 1]} 2 4 None).
  - apply union_wf; apply singleton_wf; lia.
  - lia.
  - lia.
Defined.

(** C3: the two scenarios of the specification. *)
Theorem merklize_scenarios :
  merklize {[0]} 2 4 None = Ok 2 ∧ merklize {[0; 1]} 2 4 None = Ok 1.
Proof. split; vm_compute; reflexivity. Qed.

(** C4: on a valid input, with a bound below 2^53, a returned count is
    between 0 and [len(chunkmap) * (arity - 1) * levels], where [levels] is
    [ceil(log_arity(max_theoretical_chunks))]; and the count is returned
    whenever the bound is at least the arity. *)
Theorem merklize_bounds (cm : gset Z) (a mtc : Z) (fn : option string) :
  RoaringBitmap.wf cm → 2 ≤ a →
  (∃ m, RoaringBitmap.max cm = Ok m ∧ m < mtc) → mtc < 2 ^ 53 →
  (∀ v, merklize cm a mtc fn = Ok v →
        0 ≤ v ≤ RoaringBitmap.len cm * (a - 1) * ceil_log a mtc)
  ∧ (a ≤ mtc → returns (merklize cm a mtc fn)).
Proof.
  intros Hwf Ha (m & Hm & Hlt) _.
  assert (0 ≤ m) as Hm0.
  { apply max_Ok in Hm as (_ & Hin & _). specialize (Hwf m Hin). lia. }
  destruct (decide (a ≤ mtc)) as [Hge|Hsmall].
  - destruct (merklize_run_returns cm a mtc fn m) as (st & Hst & Hb);
      try done.
    apply merklize_of_run in Hst. split; [|intros _; by eexists].
    intros v Hv. rewrite Hst in Hv. by injection Hv as <-.
  - split; [|lia]. intros v Hv. exfalso. unfold merklize in Hv.
    rewrite (merklize_run_checked cm a mtc fn m) in Hv by (done || lia).
    destruct (Z.to_nat mtc); cbn [level_loop theoretical_siblings] in Hv;
      (destruct (Z.leb_spec a mtc); [lia|]); discriminate Hv.
Qed.

Lemma merklize_bounds_witness :
  (∀ v, merklize {[0; 1; 7]} 3 10 None = Ok v →
        0 ≤ v ≤ RoaringBitmap.len {[0; 1; 7]} * (3 - 1) * ceil_log 3 10)
  ∧ (3 ≤ 10 → returns (merklize {[0; 1; 7]} 3 10 None)).
Proof.
  apply (merklize_bounds {[0; 1; 7]} 3 10 None).
  - repeat apply union_wf; apply singleton_wf; lia.
  - lia.
  - exists 7. split; [vm_compute; reflexivity|lia].
  - lia.
Defined.

(** C7: on a valid input, with a bound below 2^53 (which bounds the arity
    too whenever a level is built), the run with a file (dense scan up to
    the theoretical number of parents) and the run without one (sparse scan
    up to [max_actual_parents]) give the same result: the same exception, or
    the same count and the same parents at every level; and both return when
    the bound is at least the arity. *)
Theorem observer_changes_nothing (cm : gset Z) (a mtc : Z) (f : string) :
  RoaringBitmap.wf cm → 2 ≤ a →
  (∃ m, RoaringBitmap.max cm = Ok m ∧ m < mtc) → mtc < 2 ^ 53 →
  merklize cm a mtc (Some f) = merklize cm a mtc None
  ∧ recorded_levels cm a mtc (Some f) = recorded_levels cm a mtc None
  ∧ (a ≤ mtc → returns (merklize cm a mtc (Some f))
               ∧ returns (recorded_levels cm a mtc (Some f))).
Proof.
  intros Hwf Ha (m & Hm & Hlt) _.
  assert (1 ≤ mtc) as Hmtc.
  { apply max_Ok in Hm as (_ & Hin & _). specialize (Hwf m Hin). lia. }
  unfold merklize, recorded_levels.
  rewrite !(merklize_run_checked cm a mtc _ m) by done.
  match goal with |- context [level_loop _ (Some f) a ?s1] =>
    match goal with |- context [level_loop _ None a ?s2] =>
      destruct (level_loop_core (Z.to_nat mtc) (Some f) None a s1 s2)
        as (st1 & st2 & H1 & H2 & Hcore);
      [done|by apply (initial_inv cm mtc m)|done
      |cbn [theoretical_siblings]; lia|];
      destruct (level_loop_returns (Z.to_nat mtc) None a s2 (ceil_log a mtc))
        as (st & Hst & _ & Hsome);
      [done|by apply (initial_inv cm mtc m)|cbn [theoretical_siblings]; lia
      |apply (ceil_log_spec a mtc Ha Hmtc)
      |cbn [theoretical_siblings]; apply (ceil_log_spec a mtc Ha Hmtc)|]
    end end.
  rewrite H2 in Hst. injection Hst as <-. cbn [theoretical_siblings p] in Hsome.
  rewrite H1, H2. cbn [mbind result_bind].
  unfold core in Hcore. injection Hcore as Hcl Hnh Hts HM Hps Hls Hp.
  destruct (p st1) as [v1|], (p st2) as [v2|]; try discriminate Hp;
    cbn [mbind result_bind].
  - rewrite !write_num_hashes, Hnh.
    assert (levels (write "}" (write (node_label (current_level st1) v1
                                      +:+ filled "gray70") st1))
            = levels st2) as -> by (by destruct st1).
    split; [done|]. split; [done|]. intros _. split; by eexists.
  - split; [done|]. split; [done|]. intros Hge.
    destruct Hsome as [? [=]]. by left.
Qed.

Lemma observer_changes_nothing_witness :
  merklize {[0; 1; 7]} 3 10 (Some "tree.dot") = merklize {[0; 1; 7]} 3 10 None
  ∧ recorded_levels {[0; 1; 7]} 3 10 (Some "tree.dot")
    = recorded_levels {[0; 1; 7]} 3 10 None
  ∧ (3 ≤ 10 → returns (merklize {[0; 1; 7]} 3 10 (Some "tree.dot"))
              ∧ returns (recorded_levels {[0; 1; 7]} 3 10 (Some "tree.dot"))).
Proof.
  apply (observer_changes_nothing {[0; 1; 7]} 3 10 "tree.dot").
  - repeat apply union_wf; apply singleton_wf; lia.
  - lia.
  - exists 7. split; [vm_compute; reflexivity|lia].
  - lia.
Defined.

(** C8: for an arity of at least 2 and a width below 2^53, over a level of
    32-bit indices, the width strictly decreases from one level to the next
    as long as the loop runs, so the loop ends within
    [max_theoretical_chunks] iterations, by an exception of its body or with
    a width below the arity; [merklize] is never cut short, and what it
    returns is the total accumulated by the loop. *)
Theorem level_loop_terminates (cm : gset Z) (a mtc : Z) (fn : option string) :
  RoaringBitmap.wf cm → 2 ≤ a → mtc < 2 ^ 53 →
  (∀ st st', RoaringBitmap.wf (map st) → theoretical_siblings st < 2 ^ 53 →
             a ≤ theoretical_siblings st → level_body fn a st = Ok st' →
             theoretical_siblings st' = ceil_div (theoretical_siblings st) a
             ∧ theoretical_siblings st' < theoretical_siblings st)
  ∧ (∀ fuel st, RoaringBitmap.wf (map st) → theoretical_siblings st < 2 ^ 53 →
       theoretical_siblings st ≤ Z.of_nat fuel →
       level_loop fuel fn a st ≠ OutOfFuel
       ∧ level_loop fuel fn a st
         = level_loop (Z.to_nat (theoretical_siblings st)) fn a st
       ∧ ∀ st', level_loop fuel fn a st = Ok st' →
                theoretical_siblings st' < a)
  ∧ merklize cm a mtc fn ≠ OutOfFuel
  ∧ (∀ st, merklize_run cm a mtc fn = Ok st →
           theoretical_siblings st < a
           ∧ merklize cm a mtc fn = Ok (num_hashes st)).
Proof.
  intros _ Ha _. split; [|split; [|split]].
  - intros st st' _ _ Hts Hbody.
    destruct (level_body_cases fn a st) as [H|[H|(m & d & _ & H)]];
      rewrite H in Hbody; try discriminate Hbody.
    injection Hbody as <-. cbn [theoretical_siblings]. split; [done|].
    pose proof (ceil_div_lt (theoretical_siblings st) a Ha Hts). lia.
  - intros fuel st _ _ Hfuel.
    destruct (level_loop_exits fuel fn a st Ha Hfuel) as [H1 H2].
    split; [done|]. split; [|done]. apply level_loop_fuel; [done|done|lia].
  - unfold merklize, merklize_run, math_log_check, assert.
    destruct (0 <? mtc); [|done]. destruct (0 <? a); [|done].
    destruct (a =? 1); [done|]. cbn [mbind result_bind].
    destruct (max_cases cm) as [[_ ->]|(m & -> & _)]; [done|].
    cbn [mbind result_bind]. destruct (m <? mtc); [|done].
    cbn [mbind result_bind].
    match goal with |- context [level_loop ?n fn a ?s] =>
      destruct (level_loop_exits n fn a s Ha) as [Hno _];
        [cbn [theoretical_siblings]; lia|];
      destruct (level_loop n fn a s) as [st| |]; [|done|done] end.
    cbn [mbind result_bind]. by destruct (p st).
  - intros st Hrun. split; [|by apply merklize_of_run].
    unfold merklize_run, math_log_check, assert in Hrun.
    destruct (0 <? mtc); [|done]. destruct (0 <? a); [|done].
    destruct (a =? 1); [done|]. cbn [mbind result_bind] in Hrun.
    destruct (max_cases cm) as [[_ Hm]|(m & Hm & _)]; rewrite Hm in Hrun;
      [done|].
    cbn [mbind result_bind] in Hrun. destruct (m <? mtc); [|done].
    cbn [mbind result_bind] in Hrun.
    match type of Hrun with context [level_loop ?n fn a ?s] =>
      destruct (level_loop_exits n fn a s Ha) as [_ Hexit];
        [cbn [theoretical_siblings]; lia|];
      destruct (level_loop n fn a s) as [st0| |]; [|done|done] end.
    specialize (Hexit st0 eq_refl). cbn [mbind result_bind] in Hrun.
    destruct (p st0); [|done]. cbn [mbind result_bind] in Hrun.
    injection Hrun as <-. by destruct fn, st0.
Qed.

Lemma level_loop_terminates_witness :
  merklize {[0; 1; 7]} 3 10 None ≠ OutOfFuel.
Proof.
  apply (level_loop_terminates {[0; 1; 7]} 3 10 None).
  - repeat apply union_wf; apply singleton_wf; lia.
  - lia.
  - lia.
Defined.

(** C9, as the code has it: a level with the single node 0 has the single
    parent 0, which is more than 1 / 2. *)
Lemma parents_not_divided_by_arity :
  ∃ st', level_body None 2 (Locals 0 0 4 {[0]} [] None [] []) = Ok st'
         ∧ ¬ (RoaringBitmap.len (map st') * 2 ≤ RoaringBitmap.len {[0]})
         ∧ ¬ (RoaringBitmap.len (map st') ≤ RoaringBitmap.len {[0]} / 2).
Proof.
  eexists. split; [vm_compute; reflexivity|].
  split; intros H; vm_compute in H; by apply H.
Qed.

(** C9, amended: at every level transition the parent level has no more
    nodes than the level below. *)
Theorem parents_not_more_than_children (fn : option string) (a : Z)
    (st st' : locals) :
  1 ≤ a → level_body fn a st = Ok st' →
  RoaringBitmap.len (map st') ≤ RoaringBitmap.len (map st).
Proof.
  intros Ha Hbody.
  destruct (level_body_cases fn a st) as [H|[H|(m & d & _ & H)]];
    rewrite H in Hbody; try discriminate Hbody.
  injection Hbody as <-. cbn [map].
  etrans; [apply len_of_list|]. by apply present_parents_le_len.
Qed.

Lemma parents_not_more_than_children_witness :
  RoaringBitmap.len (map (Locals 1 3 4 {[0; 2]} [0; 2] (Some 2) [] [[0; 2]]))
  ≤ RoaringBitmap.len (map (Locals 0 0 10 {[0; 1; 7]} [] None [] [])).
Proof.
  apply (parents_not_more_than_children None 3
           (Locals 0 0 10 {[0; 1; 7]} [] None [] [])
           (Locals 1 3 4 {[0; 2]} [0; 2] (Some 2) [] [[0; 2]])).
  - lia.
  - vm_compute. reflexivity.
Defined.

(** C10: on a non-empty chunk set within a bound that is below the arity,
    the loop body never runs, [p] is unbound when the label of the root is
    built, and [merklize] raises, with or without a filename. *)
Theorem merklize_unbound_p (cm : gset Z) (a mtc : Z) (fn : option string) :
  RoaringBitmap.wf cm →
  (∃ m, RoaringBitmap.max cm = Ok m ∧ m < mtc) → mtc < a →
  merklize cm a mtc fn = Raise UnboundLocalError
  ∧ merklize cm a mtc fn ≠ Ok 0.
Proof.
  intros Hwf (m & Hm & Hlt) Hsmall.
  assert (0 ≤ m) as Hm0.
  { apply max_Ok in Hm as (_ & Hin & _). specialize (Hwf m Hin). lia. }
  assert (merklize cm a mtc fn = Raise UnboundLocalError) as ->; [|done].
  unfold merklize. rewrite (merklize_run_checked cm a mtc fn m) by (done || lia).
  destruct (Z.to_nat mtc); cbn [level_loop theoretical_siblings];
    (destruct (Z.leb_spec a mtc); [lia|]); reflexivity.
Qed.

Lemma merklize_unbound_p_witness :
  merklize {[0]} 3 2 None = Raise UnboundLocalError
  ∧ merklize {[0]} 3 2 None ≠ Ok 0.
Proof.
  apply (merklize_unbound_p {[0]} 3 2 None).
  - apply singleton_wf. lia.
  - exists 0. split; [vm_compute; reflexivity|lia].
  - lia.
Defined.

(** * More of the file *)

(** ** clamp *)

(** X1: with bounds in order, [clamp] lands in the bounds, leaves what is within
    them alone and keeps the order of its arguments. *)
Theorem clamp_within (n n' min_n max_n : Z) :
  min_n ≤ max_n →
  min_n ≤ clamp n min_n max_n ≤ max_n
  ∧ (min_n ≤ n ≤ max_n → clamp n min_n max_n = n)
  ∧ (n ≤ n' → clamp n min_n max_n ≤ clamp n' min_n max_n).
Proof.
  intros Hb. unfold clamp.
  destruct (Z.leb_spec max_n n), (Z.leb_spec n min_n),
    (Z.leb_spec max_n n'), (Z.leb_spec n' min_n); lia.
Qed.

Lemma clamp_within_witness :
  0 ≤ clamp 7 0 4 ≤ 4
  ∧ (0 ≤ 7 ≤ 4 → clamp 7 0 4 = 7)
  ∧ (7 ≤ 9 → clamp 7 0 4 ≤ clamp 9 0 4).
Proof. apply (clamp_within 7 9 0 4). lia. Defined.

(** X2: the bounds are not checked: when they are out of order, everything below
    the upper bound is sent to the lower bound, above it. *)
Theorem clamp_inverted_bounds (n min_n max_n : Z) :
  max_n < min_n →
  (max_n ≤ n → clamp n min_n max_n = max_n)
  ∧ (n < max_n → clamp n min_n max_n = min_n ∧ max_n < clamp n min_n max_n).
Proof.
  intros Hb. unfold clamp.
  destruct (Z.leb_spec max_n n), (Z.leb_spec n min_n); lia.
Qed.

Lemma clamp_inverted_bounds_witness :
  (0 ≤ -1 → clamp (-1) 10 0 = 0)
  ∧ (-1 < 0 → clamp (-1) 10 0 = 10 ∧ 0 < clamp (-1) 10 0).
Proof. apply (clamp_inverted_bounds (-1) 10 0). lia. Defined.

(** ** chunkmap_from_bytemap, continued *)

Lemma max_is (X : gset Z) m :
  m ∈ X → (∀ x, x ∈ X → x ≤ m) → RoaringBitmap.max X = Ok m.
Proof.
  intros Hin Hmax.
  destruct (max_nonempty X) as (m' & Hm' & Hin' & Hmax').
  - intros ->. by apply not_elem_of_empty in Hin.
  - rewrite Hm'. f_equal. specialize (Hmax m' Hin'). specialize (Hmax' m Hin).
    lia.
Qed.

Lemma div_in_block x cs c : 1 ≤ cs → c * cs ≤ x < (c + 1) * cs ↔ c = x / cs.
Proof.
  intros Hcs. pose proof (Z.div_mod x cs ltac:(lia)).
  pose proof (Z.mod_pos_bound x cs ltac:(lia)). split; [nia|].
  intros ->. nia.
Qed.

(** The chunks of a byte set are the quotients of its bytes by the chunk
    size. *)
Lemma elem_of_chunkmap (B : gset Z) cs m :
  RoaringBitmap.wf B → RoaringBitmap.max B = Ok m → 1 ≤ cs →
  ∃ C, chunkmap_from_bytemap B cs = Ok C
       ∧ ∀ c, c ∈ C ↔ ∃ x, x ∈ B ∧ c = x / cs.
Proof.
  intros Hwf Hm Hcs. unfold chunkmap_from_bytemap. rewrite Hm.
  cbn [mbind result_bind]. destruct (Z.eqb_spec cs 0); [lia|].
  apply max_Ok in Hm as (_ & Hin & Hmax).
  destruct (Z.eqb_spec cs 1) as [->|Hne].
  - exists B. split; [done|]. intros c. split.
    + intros Hc. exists c. by rewrite Z.div_1_r.
    + intros (x & Hx & ->). by rewrite Z.div_1_r.
  - eexists. split; [done|]. intros c. rewrite elem_of_chunk_scan. split.
    + intros (_ & x & Hx & Hr). exists x. split; [done|].
      by apply div_in_block.
    + intros (x & Hx & ->). specialize (Hwf x Hx). specialize (Hmax x Hx).
      split.
      * split; [apply Z.div_pos; lia|apply Z.div_le_mono; lia].
      * exists x. split; [done|]. by apply div_in_block.
Qed.

Lemma chunkmap_result_max (B : gset Z) (chunk_size m : Z) :
  RoaringBitmap.wf B → RoaringBitmap.max B = Ok m → 1 ≤ chunk_size →
  ∃ C, chunkmap_from_bytemap B chunk_size = Ok C
       ∧ RoaringBitmap.max C = Ok (m / chunk_size)
       ∧ RoaringBitmap.wf C.
Proof.
  intros Hwf Hm Hcs.
  destruct (elem_of_chunkmap B chunk_size m Hwf Hm Hcs) as (C & HC & Hel).
  exists C. split; [done|]. apply max_Ok in Hm as (_ & Hin & Hmax). split.
  - apply max_is.
    + apply Hel. by exists m.
    + intros c (x & Hx & ->)%Hel. apply Z.div_le_mono; [lia|by apply Hmax].
  - intros c (x & Hx & ->)%Hel. specialize (Hwf x Hx). split.
    + apply Z.div_pos; lia.
    + assert (x / chunk_size ≤ x) by (apply Z.div_le_upper_bound; nia). lia.
Qed.

(** X3: the chunk set of a non-empty byte set is not empty, holds valid indices
    and has the chunk of the last byte as its maximum. *)
Theorem chunkmap_max (B : gset Z) (chunk_size m : Z) :
  RoaringBitmap.wf B → RoaringBitmap.max B = Ok m → 1 ≤ chunk_size →
  ∃ C, chunkmap_from_bytemap B chunk_size = Ok C
       ∧ RoaringBitmap.max C = Ok (m / chunk_size)
       ∧ RoaringBitmap.wf C.
Proof. apply chunkmap_result_max. Qed.

Lemma chunkmap_max_witness :
  ∃ C, chunkmap_from_bytemap {[3; 70]} 32 = Ok C
       ∧ RoaringBitmap.max C = Ok (70 / 32)
       ∧ RoaringBitmap.wf C.
Proof.
  apply (chunkmap_max {[3; 70]} 32 70).
  - apply union_wf; apply singleton_wf; lia.
  - vm_compute. reflexivity.
  - lia.
Defined.

(** X4: executing more bytes never removes a chunk. *)
Theorem chunkmap_monotone (B B' : gset Z) (chunk_size : Z) :
  RoaringBitmap.wf B' → B ≠ ∅ → B ⊆ B' → 1 ≤ chunk_size →
  ∃ C C', chunkmap_from_bytemap B chunk_size = Ok C
          ∧ chunkmap_from_bytemap B' chunk_size = Ok C'
          ∧ C ⊆ C'.
Proof.
  intros Hwf' Hne Hsub Hcs.
  assert (RoaringBitmap.wf B) as Hwf by (intros x Hx; apply Hwf', Hsub, Hx).
  destruct (max_nonempty B Hne) as (m & Hm & Hin & _).
  destruct (max_nonempty B') as (m' & Hm' & _).
  { intros HE. apply Hsub in Hin. rewrite HE in Hin.
    by apply not_elem_of_empty in Hin. }
  destruct (elem_of_chunkmap B chunk_size m Hwf Hm Hcs) as (C & HC & Hel).
  destruct (elem_of_chunkmap B' chunk_size m' Hwf' Hm' Hcs) as (C' & HC' & Hel').
  exists C, C'. split; [done|]. split; [done|].
  intros c (x & Hx & ->)%Hel. apply Hel'. exists x. split; [by apply Hsub|done].
Qed.

Lemma chunkmap_monotone_witness :
  ∃ C C', chunkmap_from_bytemap {[70]} 32 = Ok C
          ∧ chunkmap_from_bytemap {[3; 70]} 32 = Ok C'
          ∧ C ⊆ C'.
Proof.
  apply (chunkmap_monotone {[70]} {[3; 70]} 32).
  - apply union_wf; apply singleton_wf; lia.
  - vm_compute. discriminate.
  - apply union_subseteq_r.
  - lia.
Defined.

(** X5: chunking the chunks is chunking with the product of the sizes. *)
Theorem chunkmap_compose (B : gset Z) (s k : Z) :
  RoaringBitmap.wf B → B ≠ ∅ → 1 ≤ s → 1 ≤ k →
  ∃ C, chunkmap_from_bytemap B s = Ok C
       ∧ chunkmap_from_bytemap C k = chunkmap_from_bytemap B (s * k)
       ∧ returns (chunkmap_from_bytemap B (s * k)).
Proof.
  intros Hwf Hne Hs Hk.
  destruct (max_nonempty B Hne) as (m & Hm & _).
  destruct (chunkmap_result_max B s m Hwf Hm Hs) as (C & HC & HmC & HwfC).
  destruct (elem_of_chunkmap B s m Hwf Hm Hs) as (C0 & HC0 & Hel).
  rewrite HC in HC0. injection HC0 as <-.
  destruct (elem_of_chunkmap C k _ HwfC HmC Hk) as (D & HD & HelD).
  destruct (elem_of_chunkmap B (s * k) m Hwf Hm ltac:(nia)) as (D' & HD' & HelD').
  exists C. split; [done|]. rewrite HD, HD'. split; [|by eexists].
  f_equal. apply set_eq. intros d. rewrite HelD, HelD'. split.
  - intros (c & (x & Hx & ->)%Hel & ->). exists x. split; [done|].
    apply Z.div_div; lia.
  - intros (x & Hx & ->). exists (x / s). split; [apply Hel; by exists x|].
    symmetry. apply Z.div_div; lia.
Qed.

Lemma chunkmap_compose_witness :
  ∃ C, chunkmap_from_bytemap {[3; 70]} 4 = Ok C
       ∧ chunkmap_from_bytemap C 8 = chunkmap_from_bytemap {[3; 70]} (4 * 8)
       ∧ returns (chunkmap_from_bytemap {[3; 70]} (4 * 8)).
Proof.
  apply (chunkmap_compose {[3; 70]} 4 8).
  - apply union_wf; apply singleton_wf; lia.
  - vm_compute. discriminate.
  - lia.
  - lia.
Defined.

Lemma len_clamp_full (X : gset Z) a b :
  a ≤ b → (∀ x, a ≤ x < b → x ∈ X) →
  RoaringBitmap.len (RoaringBitmap.clamp X a b) = b - a.
Proof.
  intros Hab Hfull.
  assert (RoaringBitmap.clamp X a b = list_to_set (seqZ a (b - a))) as ->.
  { apply set_eq. intros x.
    rewrite elem_of_clamp, elem_of_list_to_set, elem_of_seqZ. split.
    - intros [? _]. lia.
    - intros ?. split; [lia|]. apply Hfull. lia. }
  unfold RoaringBitmap.len. rewrite size_list_to_set by apply NoDup_seqZ.
  rewrite length_seqZ. lia.
Qed.

Lemma chunk_scan_whole (B : gset Z) cs (n : nat) :
  1 ≤ cs → (∀ x y, x ∈ B → y / cs = x / cs → y ∈ B) →
  RoaringBitmap.len (RoaringBitmap.clamp B 0 (Z.of_nat n * cs))
  = RoaringBitmap.len (chunk_scan B cs (Z.of_nat n - 1)) * cs.
Proof.
  intros Hcs Hwhole. unfold chunk_scan.
  replace (Z.of_nat n - 1 + 1) with (Z.of_nat n) by lia.
  induction n as [|n IH].
  - rewrite range_empty by lia. cbn [foldl].
    pose proof (len_clamp_width B 0 (Z.of_nat 0 * cs)).
    pose proof (len_nonneg (RoaringBitmap.clamp B 0 (Z.of_nat 0 * cs))).
    unfold RoaringBitmap.len at 2. rewrite size_empty. lia.
  - replace (Z.of_nat (S n)) with (Z.of_nat n + 1) by lia.
    rewrite range_snoc by lia. rewrite foldl_app. cbn [foldl].
    set (acc := foldl (chunk_body B cs) ∅ (range 0 (Z.of_nat n))) in *.
    rewrite (len_clamp_split B 0 (Z.of_nat n * cs)) by nia.
    destruct (chunk_body_cases B cs acc (Z.of_nat n))
      as [[-> (x & Hx & Hr)]|[-> Hz]].
    + assert (Z.of_nat n ∉ acc) as Hfresh.
      { unfold acc. rewrite elem_of_chunk_fold, elem_of_range.
        intros [Hc|[? _]]; [by apply not_elem_of_empty in Hc|lia]. }
      rewrite (len_clamp_full B (Z.of_nat n * cs)); [|nia|].
      * unfold RoaringBitmap.len at 2.
        rewrite size_union by (apply disjoint_singleton_l; exact Hfresh).
        rewrite size_singleton. unfold RoaringBitmap.len in IH at 2. nia.
      * intros y Hy. apply (Hwhole x y Hx).
        apply div_in_block in Hr; [|done]. apply div_in_block in Hy; [|done].
        congruence.
    + rewrite Hz. lia.
Qed.

(** X6: when the executed bytes are a union of whole chunks, the chunks cover
    exactly the executed bytes: nothing is wasted. *)
Theorem chunked_bytes_exact (B : gset Z) (s : Z) :
  RoaringBitmap.wf B → B ≠ ∅ → 1 ≤ s →
  (∀ x y, x ∈ B → y / s = x / s → y ∈ B) →
  ∃ C, chunkmap_from_bytemap B s = Ok C
       ∧ RoaringBitmap.len C * s = RoaringBitmap.len B.
Proof.
  intros Hwf HB Hs Hwhole.
  destruct (max_nonempty B HB) as (m & Hm & Hin & Hmax).
  unfold chunkmap_from_bytemap. rewrite Hm. cbn [mbind result_bind].
  destruct (Z.eqb_spec s 0); [lia|].
  destruct (Z.eqb_spec s 1) as [->|Hs1].
  - exists B. split; [done|lia].
  - eexists. split; [done|].
    pose proof (Hwf m Hin) as Hm0.
    assert (0 ≤ m / s) as Hq by (apply Z.div_pos; lia).
    pose proof (chunk_scan_whole B s (Z.to_nat (m / s + 1)) Hs Hwhole) as Hc.
    rewrite Z2Nat.id in Hc by lia.
    replace (m / s + 1 - 1) with (m / s) in Hc by lia.
    rewrite clamp_all in Hc; [lia|].
    intros x Hx. specialize (Hwf x Hx). specialize (Hmax x Hx).
    pose proof (Z.div_mod m s ltac:(lia)).
    pose proof (Z.mod_pos_bound m s ltac:(lia)). nia.
Qed.

Lemma chunked_bytes_exact_witness :
  ∃ C, chunkmap_from_bytemap {[4; 5]} 2 = Ok C
       ∧ RoaringBitmap.len C * 2 = RoaringBitmap.len {[4; 5]}.
Proof.
  apply (chunked_bytes_exact {[4; 5]} 2).
  - apply union_wf; apply singleton_wf; lia.
  - vm_compute. discriminate.
  - lia.
  - intros x y Hx Hy. apply elem_of_union in Hx.
    rewrite !elem_of_singleton in Hx. rewrite elem_of_union, !elem_of_singleton.
    assert (y / 2 = 2) as Hq by (destruct Hx as [->| ->]; exact Hy).
    pose proof (Z.div_mod y 2 ltac:(lia)).
    pose proof (Z.mod_pos_bound y 2 ltac:(lia)). lia.
Defined.

(** ** merklize, continued *)

Lemma missing_hashes_app (M : gset Z) a ts l1 l2 :
  missing_hashes M a ts (l1 ++ l2)
  = missing_hashes M a ts l1 + missing_hashes M a ts l2.
Proof.
  induction l1 as [|v l1 IH]; [done|]. cbn [app].
  rewrite !missing_hashes_cons, IH.
  destruct (decide (group_len M a ts v = 0)); lia.
Qed.

(** The hashes of a scan and the siblings it has met add up to [arity] per
    parent. *)
Lemma missing_hashes_range (M : gset Z) a ts (n : nat) :
  1 ≤ a → 0 ≤ ts →
  missing_hashes M a ts (range 0 (Z.of_nat n))
  = a * Z.of_nat (length (present_parents M a ts (range 0 (Z.of_nat n))))
    - RoaringBitmap.len (RoaringBitmap.clamp M 0 (Z.min (Z.of_nat n * a) ts)).
Proof.
  intros Ha Hts. induction n as [|n IH].
  - rewrite range_empty by lia.
    pose proof (len_clamp_width M 0 (Z.min (Z.of_nat 0 * a) ts)).
    pose proof (len_nonneg (RoaringBitmap.clamp M 0 (Z.min (Z.of_nat 0 * a) ts))).
    change (missing_hashes M a ts []) with 0.
    change (present_parents M a ts []) with (@nil Z). cbn [length]. lia.
  - replace (Z.of_nat (S n)) with (Z.of_nat n + 1) by lia.
    rewrite range_snoc, missing_hashes_app, present_parents_app, length_app by lia.
    rewrite IH, missing_hashes_cons, present_parents_cons.
    change (missing_hashes M a ts []) with 0.
    change (present_parents M a ts []) with (@nil Z).
    assert (RoaringBitmap.len
              (RoaringBitmap.clamp M 0 (Z.min ((Z.of_nat n + 1) * a) ts))
            = RoaringBitmap.len
                (RoaringBitmap.clamp M 0 (Z.min (Z.of_nat n * a) ts))
              + group_len M a ts (Z.of_nat n)) as ->.
    { unfold group_len. destruct (decide (Z.of_nat n * a ≤ ts)) as [Hle|Hgt].
      - rewrite (Z.min_l (Z.of_nat n * a) ts) by done.
        apply len_clamp_split; lia.
      - rewrite (Z.min_r (Z.of_nat n * a) ts) by lia.
        rewrite (Z.min_r ((Z.of_nat n + 1) * a) ts) by nia.
        pose proof (len_clamp_width M (Z.of_nat n * a) ts).
        pose proof (len_nonneg (RoaringBitmap.clamp M (Z.of_nat n * a) ts)).
        lia. }
    destruct (decide (group_len M a ts (Z.of_nat n) = 0)) as [E|E];
      cbn [length]; lia.
Qed.

Lemma NoDup_present_parents (M : gset Z) a ts lo hi :
  NoDup (present_parents M a ts (range lo hi)).
Proof. unfold present_parents, range. apply NoDup_filter, NoDup_seqZ. Qed.

(** A level and its parents, from a state that satisfies the invariant. *)
Lemma level_parents_facts (M : gset Z) a ts :
  2 ≤ a → (∀ x, x ∈ M → 0 ≤ x < ts) → 0 ≤ ts →
  RoaringBitmap.of_list (level_parents M a ts) = set_map (λ x, x / a) M
  ∧ RoaringBitmap.len (RoaringBitmap.of_list (level_parents M a ts))
    = Z.of_nat (length (level_parents M a ts))
  ∧ level_missing M a ts
    = a * Z.of_nat (length (level_parents M a ts)) - RoaringBitmap.len M.
Proof.
  intros Ha Hin Hts.
  pose proof (ceil_div_bounds ts a ltac:(lia)) as Hc.
  assert (0 ≤ ceil_div ts a) as Hc0 by nia.
  split; [|split].
  - apply set_eq. intros v. unfold RoaringBitmap.of_list, level_parents.
    rewrite elem_of_list_to_set, elem_of_present_parents, elem_of_range,
      elem_of_map. unfold group_len. rewrite len_clamp_pos. split.
    + intros [(x & Hx & Hr) _]. exists x. split; [|done].
      apply div_in_block; lia.
    + intros (x & -> & Hx). specialize (Hin x Hx).
      pose proof (Z.div_mod x a ltac:(lia)).
      pose proof (Z.mod_pos_bound x a ltac:(lia)).
      assert (0 ≤ x / a) by (apply Z.div_pos; lia).
      split; [exists x; split; [done|nia]|nia].
  - unfold RoaringBitmap.len, RoaringBitmap.of_list, level_parents.
    by rewrite size_list_to_set by apply NoDup_present_parents.
  - unfold level_missing, level_parents.
    rewrite <- (Z2Nat.id (ceil_div ts a)) by done.
    rewrite missing_hashes_range by lia. rewrite Z2Nat.id by done.
    rewrite Z.min_r by lia. by rewrite clamp_all.
Qed.

Lemma len_below (M : gset Z) ts :
  (∀ x, x ∈ M → 0 ≤ x < ts) → RoaringBitmap.len M ≤ Z.max 0 ts.
Proof.
  intros Hin. rewrite <- (clamp_all M 0 ts) at 1 by done.
  etrans; [apply len_clamp_width|]. lia.
Qed.

(** One iteration of the loop, with everything it establishes. *)
Lemma level_step fn a st :
  2 ≤ a → level_inv st → a ≤ theoretical_siblings st →
  ∃ st', level_body fn a st = Ok st'
    ∧ level_inv st'
    ∧ current_level st' = current_level st + 1
    ∧ theoretical_siblings st' = ceil_div (theoretical_siblings st) a
    ∧ map st' = set_map (λ x, x / a) (map st)
    ∧ num_hashes st' + RoaringBitmap.len (map st)
      = num_hashes st + a * RoaringBitmap.len (map st')
    ∧ 1 ≤ RoaringBitmap.len (map st') ≤ RoaringBitmap.len (map st)
    ∧ RoaringBitmap.len (map st') ≤ theoretical_siblings st'
    ∧ levels st' = levels st ++ [parents st']
    ∧ RoaringBitmap.of_list (parents st') = map st'
    ∧ NoDup (parents st')
    ∧ num_hashes st ≤ num_hashes st'.
Proof.
  intros Ha Hinv Hts.
  destruct (level_body_canon fn a st Ha Hinv Hts) as (d & pv & ->).
  pose proof (missing_hashes_bounds (map st) a (theoretical_siblings st)
                (range 0 (ceil_div (theoretical_siblings st) a)) ltac:(lia))
    as Hmb.
  fold (level_missing (map st) a (theoretical_siblings st)) in Hmb.
  destruct Hinv as [Hne Hin].
  destruct (level_parents_inv _ a _ Ha Hne Hin) as [Hne' Hin'].
  destruct (level_parents_facts (map st) a (theoretical_siblings st) Ha Hin
              ltac:(lia)) as (Himg & Hlen & Hmiss).
  pose proof (ceil_div_lt (theoretical_siblings st) a Ha Hts) as Hlt.
  pose proof (present_parents_le_len (map st) a (theoretical_siblings st)
                (ceil_div (theoretical_siblings st) a) ltac:(lia)) as Hle.
  pose proof (len_below _ _ Hin') as Hbelow.
  assert (RoaringBitmap.len
            (RoaringBitmap.of_list
               (level_parents (map st) a (theoretical_siblings st))) ≠ 0)
    as Hpos by (by rewrite len_zero).
  pose proof (len_nonneg (RoaringBitmap.of_list
                (level_parents (map st) a (theoretical_siblings st)))).
  eexists. split; [done|]. split; [by split|].
  cbn [current_level num_hashes theoretical_siblings map parents levels].
  fold (level_parents (map st) a (theoretical_siblings st)) in Hle.
  repeat split; try done; try lia. apply NoDup_present_parents.
Qed.

(** A property that holds at the start and is kept by every iteration from a
    state that satisfies the invariant holds when the loop exits. *)
Lemma level_loop_invariant (P : locals → Prop) fuel fn a st :
  2 ≤ a →
  (∀ s s', level_inv s → a ≤ theoretical_siblings s → P s →
           level_body fn a s = Ok s' → P s') →
  level_inv st → P st → theoretical_siblings st ≤ Z.of_nat fuel →
  ∃ st', level_loop fuel fn a st = Ok st' ∧ P st' ∧ level_inv st'
         ∧ theoretical_siblings st' < a.
Proof.
  intros Ha Hpres. revert st.
  induction fuel as [|fuel IH]; intros st Hinv HP Hfuel; cbn [level_loop];
    destruct (Z.leb_spec a (theoretical_siblings st)) as [Hts|Hts];
    try lia; try (by exists st).
  destruct (level_step fn a st Ha Hinv Hts) as (st1 & Hst1 & Hinv1 & _ & Hts1 & _).
  rewrite Hst1. cbn [mbind result_bind]. apply IH; [done|exact (Hpres st st1 Hinv Hts HP Hst1)|].
  pose proof (ceil_div_lt (theoretical_siblings st) a Ha Hts). lia.
Qed.

(** The same for the whole function, on a valid input with at least one
    level. *)
Lemma merklize_by_invariant (P : locals → Prop) cm a mtc fn m :
  RoaringBitmap.wf cm → 2 ≤ a → RoaringBitmap.max cm = Ok m → m < mtc →
  a ≤ mtc →
  (∀ s s', level_inv s → a ≤ theoretical_siblings s → P s →
           level_body fn a s = Ok s' → P s') →
  (∀ d, P (Locals 0 0 mtc cm [] None d [])) →
  ∃ st, P st ∧ theoretical_siblings st < a
        ∧ merklize cm a mtc fn = Ok (num_hashes st)
        ∧ recorded_levels cm a mtc fn = Ok (levels st).
Proof.
  intros Hwf Ha Hm Hlt Hge Hpres Hinit.
  unfold merklize, recorded_levels.
  rewrite (merklize_run_checked cm a mtc fn m) by (done || lia).
  match goal with |- context [level_loop _ fn a ?s] =>
    destruct (level_loop_invariant P (Z.to_nat mtc) fn a s)
      as (st & Hst & HP & _ & Hts);
      [done|done|by apply (initial_inv cm mtc m)|apply Hinit
      |cbn [theoretical_siblings]; lia|];
    destruct (level_loop_returns (Z.to_nat mtc) fn a s (ceil_log a mtc))
      as (st0 & Hst0 & _ & Hp);
      [done|by apply (initial_inv cm mtc m)|cbn [theoretical_siblings]; lia
      |apply (ceil_log_spec a mtc Ha ltac:(lia))
      |cbn [theoretical_siblings]; apply (ceil_log_spec a mtc Ha ltac:(lia))|]
    end.
  rewrite Hst in Hst0. injection Hst0 as <-.
  cbn [theoretical_siblings] in Hp. destruct Hp as [v Hv]; [by left|].
  exists st. split; [done|]. split; [done|].
  rewrite Hst. cbn [mbind result_bind]. rewrite Hv. cbn [mbind result_bind].
  destruct fn; [|done]. by destruct st.
Qed.

Lemma level_body_step fn a st st' :
  2 ≤ a → level_inv st → a ≤ theoretical_siblings st →
  level_body fn a st = Ok st' →
  level_inv st'
  ∧ current_level st' = current_level st + 1
  ∧ theoretical_siblings st' = ceil_div (theoretical_siblings st) a
  ∧ map st' = set_map (λ x, x / a) (map st)
  ∧ num_hashes st' + RoaringBitmap.len (map st)
    = num_hashes st + a * RoaringBitmap.len (map st')
  ∧ 1 ≤ RoaringBitmap.len (map st') ≤ RoaringBitmap.len (map st)
  ∧ RoaringBitmap.len (map st') ≤ theoretical_siblings st'
  ∧ levels st' = levels st ++ [parents st']
  ∧ RoaringBitmap.of_list (parents st') = map st'
  ∧ NoDup (parents st')
  ∧ num_hashes st ≤ num_hashes st'.
Proof.
  intros Ha Hinv Hts Hbody.
  destruct (level_step fn a st Ha Hinv Hts) as (st1 & Hst1 & H).
  rewrite Hbody in Hst1. by injection Hst1 as <-.
Qed.

Lemma example_level_inv :
  level_inv (Locals 0 0 10 {[0; 1; 7]} [] None [] []).
Proof.
  split; [vm_compute; discriminate|]. cbn [map theoretical_siblings].
  intros x. rewrite !elem_of_union, !elem_of_singleton. lia.
Qed.

(** X7: from one level of a width below 2^53 to the next, the nodes are
    replaced by their quotients by the arity: a parent is present exactly
    when one of its children is. *)
Theorem level_nodes_are_quotients (fn : option string) (a : Z)
    (st st' : locals) :
  2 ≤ a → level_inv st → a ≤ theoretical_siblings st →
  theoretical_siblings st < 2 ^ 53 →
  level_body fn a st = Ok st' →
  map st' = set_map (λ x, x / a) (map st)
  ∧ RoaringBitmap.of_list (parents st') = map st'
  ∧ NoDup (parents st').
Proof.
  intros Ha Hinv Hts _ Hbody.
  destruct (level_body_step fn a st st' Ha Hinv Hts Hbody)
    as (_ & _ & _ & ? & _ & _ & _ & _ & ? & ? & _).
  done.
Qed.

Lemma level_nodes_are_quotients_witness :
  map (Locals 1 3 4 {[0; 2]} [0; 2] (Some 2) [] [[0; 2]])
  = set_map (λ x, x / 3) (map (Locals 0 0 10 {[0; 1; 7]} [] None [] []))
  ∧ RoaringBitmap.of_list
      (parents (Locals 1 3 4 {[0; 2]} [0; 2] (Some 2) [] [[0; 2]]))
    = map (Locals 1 3 4 {[0; 2]} [0; 2] (Some 2) [] [[0; 2]])
  ∧ NoDup (parents (Locals 1 3 4 {[0; 2]} [0; 2] (Some 2) [] [[0; 2]])).
Proof.
  apply (level_nodes_are_quotients None 3
           (Locals 0 0 10 {[0; 1; 7]} [] None [] [])).
  - lia.
  - apply example_level_inv.
  - cbn [theoretical_siblings]. lia.
  - cbn [theoretical_siblings]. lia.
  - vm_compute. reflexivity.
Defined.

(** X8: at every level of a width below 2^53 the hashes added and the nodes
    present add up to [arity] per parent. *)
Theorem level_hashes_balance (fn : option string) (a : Z) (st st' : locals) :
  2 ≤ a → level_inv st → a ≤ theoretical_siblings st →
  theoretical_siblings st < 2 ^ 53 →
  level_body fn a st = Ok st' →
  num_hashes st' - num_hashes st
  = a * RoaringBitmap.len (map st') - RoaringBitmap.len (map st).
Proof.
  intros Ha Hinv Hts _ Hbody.
  destruct (level_body_step fn a st st' Ha Hinv Hts Hbody)
    as (_ & _ & _ & _ & ? & _).
  lia.
Qed.

Lemma level_hashes_balance_witness :
  num_hashes (Locals 1 3 4 {[0; 2]} [0; 2] (Some 2) [] [[0; 2]])
  - num_hashes (Locals 0 0 10 {[0; 1; 7]} [] None [] [])
  = 3 * RoaringBitmap.len (map (Locals 1 3 4 {[0; 2]} [0; 2] (Some 2) [] [[0; 2]]))
    - RoaringBitmap.len (map (Locals 0 0 10 {[0; 1; 7]} [] None [] [])).
Proof.
  apply (level_hashes_balance None 3).
  - lia.
  - apply example_level_inv.
  - cbn [theoretical_siblings]. lia.
  - cbn [theoretical_siblings]. lia.
  - vm_compute. reflexivity.
Defined.

Lemma set_map_div_div (X : gset Z) a (n : nat) :
  1 ≤ a →
  (set_map (λ x, x / a) (set_map (λ x, x / a ^ Z.of_nat n) X : gset Z) : gset Z)
  = set_map (λ x, x / a ^ Z.of_nat (S n)) X.
Proof.
  intros Ha. apply set_eq. intros v. rewrite !elem_of_map.
  assert (0 < a ^ Z.of_nat n) by (apply Z.pow_pos_nonneg; lia).
  assert (∀ x, x / a ^ Z.of_nat n / a = x / a ^ Z.of_nat (S n)) as Hdiv.
  { intros x. rewrite Z.div_div by lia. f_equal.
    rewrite Nat2Z.inj_succ, Z.pow_succ_r by lia. lia. }
  split.
  - intros (y & -> & (x & -> & Hx)%elem_of_map). exists x. by rewrite Hdiv.
  - intros (x & -> & Hx). exists (x / a ^ Z.of_nat n). rewrite Hdiv.
    split; [done|]. apply elem_of_map. by exists x.
Qed.

Lemma ceil_div_le_iff x y n : 0 < y → ceil_div x y ≤ n ↔ x ≤ n * y.
Proof.
  intros Hy. pose proof (ceil_div_bounds x y Hy). split; intros Hle; nia.
Qed.

(** X9: on a valid input with a bound of at least the arity and below 2^53,
    the loop records [L] levels, [L] the least number with
    [max_theoretical_chunks ≤ (arity - 1) * arity ^ L]; the parents recorded
    at level [k + 1] are, without repetition, the ancestors
    [x // arity ^ (k + 1)] of the chunks present. *)
Theorem recorded_levels_are_ancestors (cm : gset Z) (a mtc : Z)
    (fn : option string) :
  RoaringBitmap.wf cm → 2 ≤ a →
  (∃ m, RoaringBitmap.max cm = Ok m ∧ m < mtc) → a ≤ mtc → mtc < 2 ^ 53 →
  ∃ ls, recorded_levels cm a mtc fn = Ok ls
        ∧ mtc ≤ (a - 1) * a ^ Z.of_nat (length ls)
        ∧ (∀ j : nat, (j < length ls)%nat → (a - 1) * a ^ Z.of_nat j < mtc)
        ∧ ∀ (k : nat) l, ls !! k = Some l →
            NoDup l
            ∧ (list_to_set l : gset Z)
              = set_map (λ x, x / a ^ Z.of_nat (S k)) cm.
Proof.
  intros Hwf Ha (m & Hm & Hlt) Hge _.
  destruct (merklize_by_invariant
    (λ s, map s = set_map (λ x, x / a ^ Z.of_nat (length (levels s))) cm
          ∧ (∀ n, theoretical_siblings s ≤ n
                  ↔ mtc ≤ n * a ^ Z.of_nat (length (levels s)))
          ∧ (∀ j : nat, (j < length (levels s))%nat →
                        (a - 1) * a ^ Z.of_nat j < mtc)
          ∧ ∀ (k : nat) l, levels s !! k = Some l →
              NoDup l
              ∧ (list_to_set l : gset Z)
                = set_map (λ x, x / a ^ Z.of_nat (S k)) cm)
    cm a mtc fn m) as (st & (_ & Hw & Hmin & HP) & Hlast & _ & Hls); try done.
  - intros s s' Hinv Hts (HM & Hw & Hmin & Hlev) Hbody.
    destruct (level_body_step fn a s s' Ha Hinv Hts Hbody)
      as (_ & _ & Hts' & HM' & _ & _ & _ & Hls & Hps & Hnd & _).
    assert (map s' = set_map (λ x, x / a ^ Z.of_nat (S (length (levels s)))) cm)
      as HM''.
    { rewrite HM', HM. apply set_map_div_div. lia. }
    rewrite Hls, length_app. cbn [length].
    replace (length (levels s) + 1)%nat with (S (length (levels s))) by lia.
    split; [done|]. split; [|split].
    + intros n. rewrite Hts', ceil_div_le_iff, Hw by lia.
      rewrite Nat2Z.inj_succ, Z.pow_succ_r by lia.
      by replace (n * a * a ^ Z.of_nat (length (levels s)))
        with (n * (a * a ^ Z.of_nat (length (levels s)))) by ring.
    + intros j Hj. destruct (decide (j = length (levels s))) as [->|Hne].
      * destruct (Z.le_gt_cases mtc
                    ((a - 1) * a ^ Z.of_nat (length (levels s))))
          as [Hle|Hgt]; [|lia].
        apply Hw in Hle. lia.
      * apply Hmin. lia.
    + intros k l Hk.
      apply lookup_app_Some in Hk as [Hk|[Hk1 Hk2]]; [by apply Hlev|].
      destruct (k - length (levels s))%nat as [|k'] eqn:Ek; [|done].
      injection Hk2 as <-. split; [done|].
      replace k with (length (levels s)) by lia.
      unfold RoaringBitmap.of_list in Hps. by rewrite Hps.
  - intros d. cbn [map levels length theoretical_siblings].
    split; [|split; [|split]].
    + apply set_eq. intros x. rewrite elem_of_map. split.
      * intros Hx. exists x. by rewrite Z.pow_0_r, Z.div_1_r.
      * intros (y & -> & Hy). by rewrite Z.pow_0_r, Z.div_1_r.
    + intros n. rewrite Z.pow_0_r. lia.
    + intros j Hj. lia.
    + done.
  - exists (levels st). split; [done|]. split; [|by split].
    apply Hw. lia.
Qed.

Lemma recorded_levels_are_ancestors_witness :
  ∃ ls, recorded_levels {[0; 1; 7]} 3 10 None = Ok ls
        ∧ 10 ≤ (3 - 1) * 3 ^ Z.of_nat (length ls)
        ∧ (∀ j : nat, (j < length ls)%nat → (3 - 1) * 3 ^ Z.of_nat j < 10)
        ∧ ∀ (k : nat) l, ls !! k = Some l →
            NoDup l
            ∧ (list_to_set l : gset Z)
              = set_map (λ x, x / 3 ^ Z.of_nat (S k)) ({[0; 1; 7]} : gset Z).
Proof.
  apply (recorded_levels_are_ancestors {[0; 1; 7]} 3 10 None).
  - repeat apply union_wf; apply singleton_wf; lia.
  - lia.
  - exists 7. split; [vm_compute; reflexivity|lia].
  - lia.
  - lia.
Defined.

Lemma ceil_div_pow_exact a j :
  2 ≤ a → 0 ≤ j → a ≤ a ^ j → 1 ≤ j ∧ ceil_div (a ^ j) a = a ^ (j - 1).
Proof.
  intros Ha Hj Hge.
  assert (1 ≤ j) as Hj1.
  { destruct (decide (j = 0)) as [->|]; [|lia]. rewrite Z.pow_0_r in Hge. lia. }
  split; [done|].
  assert (a ^ j = a ^ (j - 1) * a) as Hpow.
  { replace j with ((j - 1) + 1) at 1 by lia.
    by rewrite Z.pow_add_r, Z.pow_1_r by lia. }
  pose proof (ceil_div_bounds (a ^ j) a ltac:(lia)). nia.
Qed.

Lemma pow_lt_base a j : 2 ≤ a → 0 ≤ j → a ^ j < a → j = 0.
Proof.
  intros Ha Hj Hlt. destruct (decide (j = 0)) as [|Hne]; [done|].
  assert (a ^ 1 ≤ a ^ j) by (apply Z.pow_le_mono_r; lia).
  rewrite Z.pow_1_r in *. lia.
Qed.

(** X10: a single present chunk in a tree of [k] full levels, of fewer than
    2^53 leaves, needs [arity - 1] hashes at each level. *)
Theorem merklize_single_chunk (c a k : Z) (fn : option string) :
  2 ≤ a → 1 ≤ k → 0 ≤ c < a ^ k → c < 2 ^ 32 → a ^ k < 2 ^ 53 →
  merklize {[c]} a (a ^ k) fn = Ok (k * (a - 1)).
Proof.
  intros Ha Hk Hc Hc32 _.
  assert (a ≤ a ^ k) as Hge.
  { rewrite <- (Z.pow_1_r a) at 1. apply Z.pow_le_mono_r; lia. }
  destruct (merklize_by_invariant
    (λ s, RoaringBitmap.len (map s) = 1
          ∧ ∃ j, 0 ≤ j ∧ theoretical_siblings s = a ^ j
                 ∧ current_level s + j = k
                 ∧ num_hashes s = current_level s * (a - 1))
    {[c]} a (a ^ k) fn c) as (st & [_ (j & Hj & Hts & Hcl & Hnh)] & Hlt & -> & _);
    try done; try lia.
  - apply singleton_wf. lia.
  - apply max_is; [by apply elem_of_singleton|].
    intros x ->%elem_of_singleton. lia.
  - intros s s' Hinv Hts [Hlen (j & Hj & Hj' & Hcl & Hnh)] Hbody.
    destruct (level_body_step fn a s s' Ha Hinv Hts Hbody)
      as (_ & Hcl' & Hts' & _ & Hbal & Hlen' & _).
    rewrite Hj' in Hts, Hts'.
    destruct (ceil_div_pow_exact a j Ha Hj Hts) as [Hj1 Hcd].
    split; [lia|]. exists (j - 1). split; [lia|]. split; [congruence|].
    split; [lia|]. nia.
  - intros d. cbn [map theoretical_siblings current_level num_hashes].
    split; [unfold RoaringBitmap.len; by rewrite size_singleton|].
    exists k. split; [lia|]. split; [done|]. split; lia.
  - rewrite Hts in Hlt. apply pow_lt_base in Hlt; [|done|done].
    f_equal. subst j. nia.
Qed.

Lemma merklize_single_chunk_witness :
  merklize {[5]} 2 (2 ^ 3) None = Ok (3 * (2 - 1)).
Proof. apply (merklize_single_chunk 5 2 3 None); lia. Defined.

Lemma full_level_step (fn : option string) (a : Z) (st st' : locals) :
  2 ≤ a → level_inv st → a ≤ theoretical_siblings st →
  RoaringBitmap.len (map st) = theoretical_siblings st →
  level_body fn a st = Ok st' →
  RoaringBitmap.len (map st') = theoretical_siblings st'
  ∧ num_hashes st'
    = num_hashes st
      + (a * ceil_div (theoretical_siblings st) a - theoretical_siblings st).
Proof.
  intros Ha Hinv Hts Hfull Hbody.
  destruct (level_body_step fn a st st' Ha Hinv Hts Hbody)
    as (_ & _ & Hts' & _ & Hbal & _ & Hle & _ & _ & _ & Hmono).
  pose proof (ceil_div_bounds (theoretical_siblings st) a ltac:(lia)).
  assert (RoaringBitmap.len (map st') = theoretical_siblings st') by nia.
  split; [done|]. nia.
Qed.

(** X11: a level in which every node is present adds the hashes of the siblings
    that the last, narrower group lacks to make [arity]: none exactly when
    the arity divides the width.  The level above is full again. *)
Theorem full_level_hashes (fn : option string) (a : Z) (st st' : locals) :
  2 ≤ a → level_inv st → a ≤ theoretical_siblings st →
  RoaringBitmap.len (map st) = theoretical_siblings st →
  level_body fn a st = Ok st' →
  RoaringBitmap.len (map st') = theoretical_siblings st'
  ∧ num_hashes st'
    = num_hashes st
      + (a * ceil_div (theoretical_siblings st) a - theoretical_siblings st)
  ∧ (num_hashes st' = num_hashes st ↔ (a | theoretical_siblings st)).
Proof.
  intros Ha Hinv Hts Hfull Hbody.
  destruct (full_level_step fn a st st' Ha Hinv Hts Hfull Hbody) as [H1 H2].
  split; [done|]. split; [done|].
  pose proof (ceil_div_bounds (theoretical_siblings st) a ltac:(lia)).
  split.
  - intros He. exists (ceil_div (theoretical_siblings st) a). lia.
  - intros [q Hq]. assert (ceil_div (theoretical_siblings st) a = q) by nia.
    nia.
Qed.

Lemma full_level_hashes_witness :
  RoaringBitmap.len (map (Locals 1 1 2 {[0; 1]} [0; 1] (Some 1) [] [[0; 1]]))
  = theoretical_siblings (Locals 1 1 2 {[0; 1]} [0; 1] (Some 1) [] [[0; 1]])
  ∧ num_hashes (Locals 1 1 2 {[0; 1]} [0; 1] (Some 1) [] [[0; 1]])
    = num_hashes (Locals 0 0 3 {[0; 1; 2]} [] None [] [])
      + (2 * ceil_div (theoretical_siblings
                         (Locals 0 0 3 {[0; 1; 2]} [] None [] [])) 2
         - theoretical_siblings (Locals 0 0 3 {[0; 1; 2]} [] None [] []))
  ∧ (num_hashes (Locals 1 1 2 {[0; 1]} [0; 1] (Some 1) [] [[0; 1]])
     = num_hashes (Locals 0 0 3 {[0; 1; 2]} [] None [] [])
     ↔ (2 | theoretical_siblings (Locals 0 0 3 {[0; 1; 2]} [] None [] []))).
Proof.
  apply (full_level_hashes None 2).
  - lia.
  - split; [vm_compute; discriminate|]. cbn [map theoretical_siblings].
    intros x. rewrite !elem_of_union, !elem_of_singleton. lia.
  - cbn [theoretical_siblings]. lia.
  - vm_compute. reflexivity.
  - vm_compute. reflexivity.
Defined.

(** X12: when every chunk of a tree of [k] full levels is present, no hash is
    missing. *)
Theorem merklize_all_chunks (cm : gset Z) (a k : Z) (fn : option string) :
  2 ≤ a → 1 ≤ k → a ^ k ≤ 2 ^ 32 →
  (∀ x, x ∈ cm ↔ 0 ≤ x < a ^ k) →
  merklize cm a (a ^ k) fn = Ok 0.
Proof.
  intros Ha Hk H32 Hall.
  assert (a ≤ a ^ k) as Hge.
  { rewrite <- (Z.pow_1_r a) at 1. apply Z.pow_le_mono_r; lia. }
  assert (RoaringBitmap.len cm = a ^ k) as Hlen.
  { rewrite <- (clamp_all cm 0 (a ^ k)) by (intros x; apply Hall).
    rewrite len_clamp_full; [lia|lia|]. intros x. apply Hall. }
  destruct (merklize_by_invariant
    (λ s, RoaringBitmap.len (map s) = theoretical_siblings s
          ∧ num_hashes s = 0
          ∧ ∃ j, 0 ≤ j ∧ theoretical_siblings s = a ^ j)
    cm a (a ^ k) fn (a ^ k - 1)) as (st & (_ & Hnh & _) & _ & -> & _);
    try done; try lia.
  - intros x Hx%Hall. lia.
  - apply max_is; [apply Hall; lia|]. intros x Hx%Hall. lia.
  - intros s s' Hinv Hts (Hfull & Hnh & j & Hj & Hj') Hbody.
    destruct (full_level_step fn a s s' Ha Hinv Hts Hfull Hbody) as [H1 H2].
    destruct (level_body_step fn a s s' Ha Hinv Hts Hbody)
      as (_ & _ & Hts' & _).
    rewrite Hj' in Hts, Hts', H2.
    destruct (ceil_div_pow_exact a j Ha Hj Hts) as [Hj1 Hcd].
    split; [done|]. split.
    + rewrite H2, Hcd, Hnh.
      replace j with ((j - 1) + 1) at 2 by lia.
      rewrite Z.pow_add_r, Z.pow_1_r by lia. lia.
    + exists (j - 1). split; [lia|congruence].
  - intros d. cbn [map theoretical_siblings num_hashes].
    split; [done|]. split; [done|]. exists k. split; [lia|done].
  - by rewrite Hnh.
Qed.

Lemma merklize_all_chunks_witness :
  merklize {[0; 1; 2; 3]} 2 (2 ^ 2) None = Ok 0.
Proof.
  apply (merklize_all_chunks {[0; 1; 2; 3]} 2 2 None); try lia.
  intros x. rewrite !elem_of_union, !elem_of_singleton. lia.
Defined.

(** ** main: the chunking of one contract *)

Lemma merklize_assert_fails cm a mtc fn m :
  2 ≤ a → 1 ≤ mtc → RoaringBitmap.max cm = Ok m → mtc ≤ m →
  merklize cm a mtc fn = Raise AssertionError.
Proof.
  intros Ha Hmtc Hm Hle. unfold merklize, merklize_run, math_log_check, assert.
  destruct (Z.ltb_spec 0 mtc); [|lia]. destruct (Z.ltb_spec 0 a); [|lia].
  destruct (Z.eqb_spec a 1); [lia|]. rewrite Hm. cbn [mbind result_bind].
  destruct (Z.ltb_spec m mtc); [lia|]. reflexivity.
Qed.

Lemma merklize_unbound cm a mtc fn m :
  1 ≤ mtc → RoaringBitmap.max cm = Ok m → m < mtc → mtc < a →
  merklize cm a mtc fn = Raise UnboundLocalError.
Proof.
  intros Hmtc Hm Hlt Hsmall. unfold merklize.
  rewrite (merklize_run_checked cm a mtc fn m) by (done || lia).
  destruct (Z.to_nat mtc); cbn [level_loop theoretical_siblings];
    (destruct (Z.leb_spec a mtc); [lia|]); reflexivity.
Qed.

Lemma chunkmap_covers (B C : gset Z) (s : Z) :
  RoaringBitmap.wf B → 1 ≤ s → chunkmap_from_bytemap B s = Ok C →
  RoaringBitmap.len B ≤ RoaringBitmap.len C * s.
Proof.
  intros Hwf Hs HC. unfold chunkmap_from_bytemap in HC.
  destruct (max_cases B) as [[_ Hm]|(m & Hm & _ & Hin & Hmax)];
    rewrite Hm in HC; [done|].
  cbn [mbind result_bind] in HC. destruct (Z.eqb_spec s 0); [lia|].
  destruct (Z.eqb_spec s 1) as [->|Hs1]; injection HC as <-; [lia|].
  pose proof (Hwf m Hin) as Hm0.
  assert (0 ≤ m / s) as Hq by (apply Z.div_pos; lia).
  pose proof (chunk_scan_covers B s (Z.to_nat (m / s + 1)) Hs) as Hc.
  rewrite Z2Nat.id in Hc by lia.
  replace (m / s + 1 - 1) with (m / s) in Hc by lia.
  rewrite clamp_all in Hc; [lia|].
  intros x Hx. specialize (Hwf x Hx). specialize (Hmax x Hx).
  pose proof (Z.div_mod m s ltac:(lia)).
  pose proof (Z.mod_pos_bound m s ltac:(lia)). nia.
Qed.

Lemma div_lt_iff m cs q : 1 ≤ cs → m / cs < q ↔ m < q * cs.
Proof.
  intros Hcs. pose proof (Z.div_mod m cs ltac:(lia)).
  pose proof (Z.mod_pos_bound m cs ltac:(lia)). nia.
Qed.

(** X13: the chunking of a contract returns when the contract has executed bytes,
    all below the last whole chunk that fits into MAXCODESIZE, and the tree
    has at least one level.  The sanity check of line 330 then passes, and
    the counts are within their bounds. *)
Theorem chunk_contract_returns (B : gset Z) (codesize chunk_size a m : Z) :
  RoaringBitmap.wf B → RoaringBitmap.max B = Ok m →
  1 ≤ chunk_size → 2 ≤ a → a ≤ MAXCODESIZE / chunk_size →
  m < MAXCODESIZE / chunk_size * chunk_size →
  ∃ r, chunk_contract B codesize chunk_size a = Ok r
       ∧ highlighted r = false
       ∧ 1 ≤ num_chunks r
       ∧ chunked_bytes r = num_chunks r * chunk_size
       ∧ RoaringBitmap.len B ≤ chunked_bytes r
       ∧ 0 ≤ merklization_hashes r
           ≤ num_chunks r * (a - 1) * ceil_log a (MAXCODESIZE / chunk_size).
Proof.
  intros Hwf Hm Hcs Ha Hge Hlt.
  destruct (chunkmap_result_max B chunk_size m Hwf Hm Hcs) as (C & HC & HmC & HwfC).
  pose proof (chunkmap_covers B C chunk_size Hwf Hcs HC) as Hcover.
  destruct (merklize_run_returns C a (MAXCODESIZE / chunk_size) None
              (m / chunk_size)) as (st & Hst & Hb); try done.
  { by apply div_lt_iff. }
  apply merklize_of_run in Hst.
  unfold chunk_contract. rewrite HC. cbn [mbind result_bind].
  rewrite Hst. cbn [mbind result_bind].
  destruct (Z.ltb_spec (RoaringBitmap.len C * chunk_size) (RoaringBitmap.len B));
    [lia|].
  eexists. split; [done|].
  cbn [highlighted num_chunks chunked_bytes merklization_hashes].
  assert (RoaringBitmap.len C ≠ 0).
  { rewrite len_zero. by apply max_Ok in HmC as [? _]. }
  pose proof (len_nonneg C). repeat split; try done; lia.
Qed.

Lemma chunk_contract_returns_witness :
  ∃ r, chunk_contract {[3; 70]} 100 32 2 = Ok r
       ∧ highlighted r = false
       ∧ 1 ≤ num_chunks r
       ∧ chunked_bytes r = num_chunks r * 32
       ∧ RoaringBitmap.len {[3; 70]} ≤ chunked_bytes r
       ∧ 0 ≤ merklization_hashes r
           ≤ num_chunks r * (2 - 1) * ceil_log 2 (MAXCODESIZE / 32).
Proof.
  apply (chunk_contract_returns {[3; 70]} 100 32 2 70).
  - apply union_wf; apply singleton_wf; lia.
  - vm_compute. reflexivity.
  - lia.
  - lia.
  - vm_compute. discriminate.
  - vm_compute. reflexivity.
Defined.

(** X14: how the chunking of a contract fails: on a contract without executed
    bytes, on a chunk size above MAXCODESIZE, on a byte at or beyond the
    last whole chunk that fits into MAXCODESIZE (which can be a byte below
    MAXCODESIZE when the chunk size does not divide it), and on an arity
    above the number of chunks. *)
Theorem chunk_contract_failures (B : gset Z) (codesize chunk_size a : Z) :
  RoaringBitmap.wf B → 1 ≤ chunk_size → 2 ≤ a →
  (B = ∅ → chunk_contract B codesize chunk_size a = Raise EmptyBitmapError)
  ∧ (B ≠ ∅ → MAXCODESIZE < chunk_size →
       chunk_contract B codesize chunk_size a = Raise ValueError)
  ∧ (∀ m, RoaringBitmap.max B = Ok m → chunk_size ≤ MAXCODESIZE →
          MAXCODESIZE / chunk_size * chunk_size ≤ m →
          chunk_contract B codesize chunk_size a = Raise AssertionError)
  ∧ (∀ m, RoaringBitmap.max B = Ok m → chunk_size ≤ MAXCODESIZE →
          m < MAXCODESIZE / chunk_size * chunk_size →
          MAXCODESIZE / chunk_size < a →
          chunk_contract B codesize chunk_size a = Raise UnboundLocalError).
Proof.
  intros Hwf Hcs Ha. split; [|split; [|split]].
  - intros ->. reflexivity.
  - intros Hne Hbig. destruct (max_nonempty B Hne) as (m & Hm & _).
    destruct (chunkmap_result_max B chunk_size m Hwf Hm Hcs) as (C & HC & _).
    unfold chunk_contract. rewrite HC. cbn [mbind result_bind].
    rewrite Z.div_small by (unfold MAXCODESIZE in *; lia).
    unfold merklize, merklize_run, math_log_check. reflexivity.
  - intros m Hm Hsmall Hle.
    destruct (chunkmap_result_max B chunk_size m Hwf Hm Hcs) as (C & HC & HmC & _).
    unfold chunk_contract. rewrite HC. cbn [mbind result_bind].
    rewrite (merklize_assert_fails C a _ None (m / chunk_size)); try done.
    + apply Z.div_le_lower_bound; unfold MAXCODESIZE in *; lia.
    + destruct (decide (MAXCODESIZE / chunk_size ≤ m / chunk_size));
        [done|]. exfalso.
      assert (m / chunk_size < MAXCODESIZE / chunk_size) as Hlt by lia.
      apply div_lt_iff in Hlt; [lia|done].
  - intros m Hm Hsmall Hlt Harity.
    destruct (chunkmap_result_max B chunk_size m Hwf Hm Hcs) as (C & HC & HmC & _).
    unfold chunk_contract. rewrite HC. cbn [mbind result_bind].
    rewrite (merklize_unbound C a _ None (m / chunk_size)); try done.
    + apply Z.div_le_lower_bound; unfold MAXCODESIZE in *; lia.
    + by apply div_lt_iff.
Qed.

Lemma chunk_contract_failures_witness :
  RoaringBitmap.max {[24575]} = Ok 24575
  ∧ 24575 < MAXCODESIZE
  ∧ chunk_contract {[24575]} 24576 5 2 = Raise AssertionError.
Proof.
  split; [vm_compute; reflexivity|]. split; [vm_compute; reflexivity|].
  refine (proj1 (proj2 (proj2 (chunk_contract_failures {[24575]} 24576 5 2
                                 _ _ _))) 24575 _ _ _).
  - apply singleton_wf. lia.
  - lia.
  - lia.
  - vm_compute. reflexivity.
  - vm_compute. discriminate.
  - vm_compute. discriminate.
Defined.

(** ** represent_contract *)

Lemma for_each_app {S A} (body : S → A → result S) s (l1 l2 : list A) :
  for_each body s (l1 ++ l2)
  = (s' ← for_each body s l1; for_each body s' l2).
Proof.
  revert s. induction l1 as [|x l1 IH]; intros s; [done|].
  cbn [app for_each]. destruct (body s x); [|done|done].
  cbn [mbind result_bind]. apply IH.
Qed.

Lemma length_append (s t : string) :
  String.length (s +:+ t) = (String.length s + String.length t)%nat.
Proof.
  induction s as [|c s IH]; [done|].
  change (String c s +:+ t) with (String c (s +:+ t)).
  cbn [String.length]. by rewrite IH.
Qed.

Lemma count_char_append x (s t : string) :
  count_char x (s +:+ t) = count_char x s + count_char x t.
Proof.
  induction s as [|c s IH]; [done|].
  change (String c s +:+ t) with (String c (s +:+ t)).
  cbn [count_char]. rewrite IH. lia.
Qed.

Lemma ceil_div_succ n cs :
  1 ≤ cs → 0 ≤ n →
  ceil_div (n + 1) cs = ceil_div n cs + (if n `mod` cs =? 0 then 1 else 0).
Proof.
  intros Hcs Hn.
  pose proof (Z.div_mod n cs ltac:(lia)) as Hdm.
  pose proof (Z.mod_pos_bound n cs ltac:(lia)) as Hr.
  assert (∀ x q, (q - 1) * cs < x ≤ q * cs → ceil_div x cs = q) as Huniq.
  { intros x q Hq. pose proof (ceil_div_bounds x cs ltac:(lia)). nia. }
  rewrite (Huniq (n + 1) (n / cs + 1)) by nia.
  destruct (Z.eqb_spec (n `mod` cs) 0) as [E|E].
  - rewrite (Huniq n (n / cs)) by nia. lia.
  - rewrite (Huniq n (n / cs + 1)) by nia. lia.
Qed.

Lemma len_clamp_point (X : gset Z) n :
  RoaringBitmap.len (RoaringBitmap.clamp X n (n + 1))
  = if RoaringBitmap.mem n X then 1 else 0.
Proof.
  unfold RoaringBitmap.mem. case_bool_decide as Hn.
  - assert (RoaringBitmap.clamp X n (n + 1) = {[n]}) as ->.
    { apply set_eq. intros x. rewrite elem_of_clamp, elem_of_singleton. split.
      - intros [? _]. lia.
      - intros ->. split; [lia|done]. }
    unfold RoaringBitmap.len. by rewrite size_singleton.
  - apply len_clamp_zero. intros x Hx Hr. by replace x with n in Hx by lia.
Qed.

(** The string after the bytes below [n]. *)
Lemma represent_prefix (B C : gset Z) cs (n : nat) :
  1 ≤ cs →
  ∃ s, for_each (represent_byte B C cs) "" (range 0 (Z.of_nat n)) = Ok s
       ∧ Z.of_nat (String.length s) = Z.of_nat n + ceil_div (Z.of_nat n) cs
       ∧ count_char "|" s = ceil_div (Z.of_nat n) cs
       ∧ count_char "M" s + count_char "X" s
         = RoaringBitmap.len (RoaringBitmap.clamp B 0 (Z.of_nat n))
       ∧ ((∀ b, b ∈ B → 0 ≤ b < Z.of_nat n → b / cs ∈ C) →
          count_char "X" s = 0).
Proof.
  intros Hcs. induction n as [|n (s & Hs & Hlen & Hbar & HMX & HX)].
  - exists "". rewrite range_empty by lia. split; [done|].
    pose proof (len_clamp_width B 0 (Z.of_nat 0)).
    pose proof (len_nonneg (RoaringBitmap.clamp B 0 (Z.of_nat 0))).
    assert (ceil_div (Z.of_nat 0) cs = 0) as ->.
    { pose proof (ceil_div_bounds (Z.of_nat 0) cs ltac:(lia)). nia. }
    cbn [String.length count_char]. repeat split; lia.
  - replace (Z.of_nat (S n)) with (Z.of_nat n + 1) by lia.
    rewrite range_snoc, for_each_app, Hs by lia.
    cbn [mbind result_bind for_each]. unfold represent_byte.
    destruct (Z.eqb_spec cs 0); [lia|]. cbn [mbind result_bind].
    eexists. split; [done|].
    rewrite ceil_div_succ by lia.
    rewrite (len_clamp_split B 0 (Z.of_nat n)) by lia.
    rewrite len_clamp_point.
    assert ((∀ b, b ∈ B → 0 ≤ b < Z.of_nat n + 1 → b / cs ∈ C) →
            count_char "X" s = 0
            ∧ (RoaringBitmap.mem (Z.of_nat n) B = true →
               RoaringBitmap.mem (Z.of_nat n / cs) C = true)) as HX'.
    { intros Hall. split.
      - apply HX. intros b Hb Hr. apply Hall; [done|lia].
      - unfold RoaringBitmap.mem. intros Hn%bool_decide_eq_true.
        apply bool_decide_eq_true. apply Hall; [done|lia]. }
    destruct (Z.of_nat n `mod` cs =? 0),
      (RoaringBitmap.mem (Z.of_nat n) B) eqn:EB,
      (RoaringBitmap.mem (Z.of_nat n / cs) C) eqn:EC;
      cbn [andb]; rewrite ?length_append, ?count_char_append;
      cbn [String.length count_char String.eqb Ascii.eqb Bool.eqb];
      (repeat split; [lia|lia|lia|]);
      intros Hall; destruct (HX' Hall) as [H0 Himp];
      try (specialize (Himp eq_refl); discriminate Himp); lia.
Qed.

(** What [print] adds to the picture holds none of its characters. *)
Lemma represent_printed (x t : string) :
  Z.of_nat (String.length (t +:+ " " +:+ newline +:+ newline))
  = Z.of_nat (String.length t) + 3
  ∧ (x = "|" ∨ x = "M" ∨ x = "X" →
     count_char x (t +:+ " " +:+ newline +:+ newline) = count_char x t).
Proof.
  split.
  - rewrite length_append.
    change (String.length (" " +:+ newline +:+ newline)) with 3%nat. lia.
  - rewrite count_char_append.
    intros [-> | [-> | ->]];
      match goal with |- _ + ?c = _ => change c with 0 end; lia.
Qed.

(** X15: what [represent_contract] prints is the picture of the contract, a
    space and two newlines; the picture has one character per byte of the
    code and one bar per chunk begun, which makes
    [codesize + ceil(codesize / chunk_size) + 3] characters printed; the
    executed bytes below [codesize] are the characters M and X. *)
Theorem represent_contract_shape (B C : gset Z) (codesize chunk_size : Z) :
  1 ≤ chunk_size → 0 ≤ codesize →
  ∃ s t, represent_contract B codesize C chunk_size = Ok s
       ∧ contract_representation B codesize C chunk_size = Ok t
       ∧ s = t +:+ " " +:+ newline +:+ newline
       ∧ Z.of_nat (String.length t) = codesize + ceil_div codesize chunk_size
       ∧ Z.of_nat (String.length s)
         = codesize + ceil_div codesize chunk_size + 3
       ∧ count_char "|" s = ceil_div codesize chunk_size
       ∧ count_char "M" s + count_char "X" s
         = RoaringBitmap.len (RoaringBitmap.clamp B 0 codesize).
Proof.
  intros Hcs Hn. unfold represent_contract, contract_representation.
  destruct (represent_prefix B C chunk_size (Z.to_nat codesize) Hcs)
    as (t & Ht & H1 & H2 & H3 & _).
  rewrite Z2Nat.id in * by done. rewrite Ht. cbn [mbind result_bind].
  exists (t +:+ " " +:+ newline +:+ newline), t.
  destruct (represent_printed "|" t) as [Hlen Hbar].
  destruct (represent_printed "M" t) as [_ HM].
  destruct (represent_printed "X" t) as [_ HX].
  rewrite Hlen, Hbar, HM, HX by auto.
  repeat split; [done|lia|done|done].
Qed.

Lemma represent_contract_shape_witness :
  ∃ s t, represent_contract {[0; 5]} 7 {[1]} 4 = Ok s
       ∧ contract_representation {[0; 5]} 7 {[1]} 4 = Ok t
       ∧ s = t +:+ " " +:+ newline +:+ newline
       ∧ Z.of_nat (String.length t) = 7 + ceil_div 7 4
       ∧ Z.of_nat (String.length s) = 7 + ceil_div 7 4 + 3
       ∧ count_char "|" s = ceil_div 7 4
       ∧ count_char "M" s + count_char "X" s
         = RoaringBitmap.len (RoaringBitmap.clamp {[0; 5]} 0 7).
Proof. apply (represent_contract_shape {[0; 5]} {[1]} 7 4); lia. Defined.

(** X16: with the chunks that [chunkmap_from_bytemap] derives from the bytes, no
    executed byte is shown as not merklized: every executed byte below
    [codesize] is an M, and there is no X. *)
Theorem represent_contract_of_chunkmap (B C : gset Z)
    (codesize chunk_size : Z) :
  RoaringBitmap.wf B → 1 ≤ chunk_size → 0 ≤ codesize →
  chunkmap_from_bytemap B chunk_size = Ok C →
  ∃ s, represent_contract B codesize C chunk_size = Ok s
       ∧ count_char "X" s = 0
       ∧ count_char "M" s
         = RoaringBitmap.len (RoaringBitmap.clamp B 0 codesize).
Proof.
  intros Hwf Hcs Hn HC. unfold represent_contract, contract_representation.
  destruct (represent_prefix B C chunk_size (Z.to_nat codesize) Hcs)
    as (s & Hs & _ & _ & HMX & HX).
  rewrite Z2Nat.id in * by done. rewrite Hs. cbn [mbind result_bind].
  eexists. split; [done|].
  destruct (represent_printed "M" s) as [_ HM'].
  destruct (represent_printed "X" s) as [_ HX'].
  rewrite HM', HX' by auto.
  assert (count_char "X" s = 0) as H0; [|split; [done|lia]].
  apply HX. intros b Hb _.
  destruct (max_cases B) as [[-> _]|(m & Hm & _)];
    [by apply not_elem_of_empty in Hb|].
  destruct (elem_of_chunkmap B chunk_size m Hwf Hm Hcs) as (C' & HC' & Hel).
  rewrite HC in HC'. injection HC' as <-. apply Hel. by exists b.
Qed.

Lemma represent_contract_of_chunkmap_witness :
  ∃ s, represent_contract {[0; 5]} 7 {[0; 1]} 4 = Ok s
       ∧ count_char "X" s = 0
       ∧ count_char "M" s
         = RoaringBitmap.len (RoaringBitmap.clamp {[0; 5]} 0 7).
Proof.
  apply (represent_contract_of_chunkmap {[0; 5]} {[0; 1]} 7 4).
  - apply union_wf; apply singleton_wf; lia.
  - lia.
  - lia.
  - vm_compute. reflexivity.
Defined.

(** ** sparkline_sizes *)

Lemma ceil_div_one s : ceil_div s 1 = s.
Proof. unfold ceil_div. rewrite Z.div_1_r. lia. Qed.

Lemma total_alter (l : list Z) (i : nat) :
  (i < length l)%nat → total (alter (Z.add 1) i l) = total l + 1.
Proof.
  revert i. induction l as [|x l IH]; intros [|i] Hi; cbn in *; try lia.
  unfold total in *. cbn. rewrite IH by lia. lia.
Qed.

Lemma clamp_bucket s (n : nat) :
  (1 ≤ n)%nat → s < Z.of_nat n →
  clamp s 0 (Z.of_nat n - 1) = Z.max 0 s
  ∧ (Z.to_nat (clamp s 0 (Z.of_nat n - 1)) < n)%nat.
Proof.
  intros Hn Hs. unfold clamp.
  destruct (Z.leb_spec (Z.of_nat n - 1) s), (Z.leb_spec s 0); lia.
Qed.

(** The loop keeps the number of buckets, puts every size it counts into
    one bucket, and counts at most every size. *)
Lemma fill_buckets_spec (bc : list Z) count l :
  (1 ≤ length bc)%nat →
  length (fill_buckets (Z.of_nat (length bc)) bc count l).1 = length bc
  ∧ total (fill_buckets (Z.of_nat (length bc)) bc count l).1 - total bc
    = (fill_buckets (Z.of_nat (length bc)) bc count l).2 - count
  ∧ count ≤ (fill_buckets (Z.of_nat (length bc)) bc count l).2
          ≤ count + Z.of_nat (length l).
Proof.
  revert bc count. induction l as [|s l IH]; intros bc count Hbc;
    cbn [fill_buckets].
  - cbn [fst snd length]. repeat split; lia.
  - rewrite ceil_div_one.
    destruct (Z.leb_spec (Z.of_nat (length bc)) s) as [Hbig|Hfit].
    + cbn [fst snd length]. repeat split; lia.
    + destruct (clamp_bucket s (length bc) Hbc Hfit) as [_ Hidx].
      set (bc' := alter (Z.add 1)
                    (Z.to_nat (clamp s 0 (Z.of_nat (length bc) - 1))) bc).
      assert (length bc' = length bc) as Hlen by apply length_alter.
      assert (total bc' = total bc + 1) as Htot by by apply total_alter.
      destruct (IH bc' (count + 1)) as (H1 & H2 & H3); [lia|].
      rewrite Hlen in H1, H2, H3. cbn [length]. split; [done|]. lia.
Qed.

Lemma filter_none {A} (P : A → Prop) `{!∀ x, Decision (P x)} (l : list A) :
  Forall (λ x, ¬ P x) l → filter P l = [].
Proof.
  induction 1 as [|x l Hx _ IH]; [done|]. by rewrite filter_cons_False.
Qed.

(** On sizes in ascending order the loop counts every size below the number
    of buckets, each in the bucket of its value, those below 0 in bucket
    0. *)
Lemma fill_buckets_sorted (bc : list Z) count l :
  (1 ≤ length bc)%nat → StronglySorted Z.le l →
  (fill_buckets (Z.of_nat (length bc)) bc count l).2
  = count + Z.of_nat (length (filter (λ s, s < Z.of_nat (length bc)) l))
  ∧ ∀ i : nat, (i < length bc)%nat →
      (fill_buckets (Z.of_nat (length bc)) bc count l).1 !! i
      = (λ x, x + Z.of_nat (length (filter (λ s, Z.max 0 s = Z.of_nat i) l)))
        <$> bc !! i.
Proof.
  revert bc count. induction l as [|s l IH]; intros bc count Hbc Hsorted;
    cbn [fill_buckets].
  - cbn. split; [lia|]. intros i Hi.
    destruct (bc !! i); cbn; [f_equal; lia|done].
  - apply StronglySorted_inv in Hsorted as [Hsorted Hall].
    rewrite ceil_div_one.
    destruct (Z.leb_spec (Z.of_nat (length bc)) s) as [Hbig|Hfit].
    + assert (Forall (λ x, Z.of_nat (length bc) ≤ x) (s :: l)) as Hbeyond.
      { apply Forall_cons. split; [done|].
        eapply Forall_impl; [exact Hall|]. intros x Hx. cbn in Hx. lia. }
      cbn [fst snd]. split.
      * rewrite filter_none; [cbn; lia|].
        eapply Forall_impl; [exact Hbeyond|]. intros x Hx. cbn in Hx. lia.
      * intros i Hi. rewrite filter_none.
        -- destruct (bc !! i); cbn; [f_equal; lia|done].
        -- eapply Forall_impl; [exact Hbeyond|]. intros x Hx. cbn in Hx. lia.
    + destruct (clamp_bucket s (length bc) Hbc Hfit) as [Hcl Hidx].
      set (b := Z.to_nat (clamp s 0 (Z.of_nat (length bc) - 1))) in *.
      set (bc' := alter (Z.add 1) b bc).
      assert (length bc' = length bc) as Hlen by apply length_alter.
      destruct (IH bc' (count + 1)) as [H1 H2]; [lia|done|].
      rewrite Hlen in H1, H2. rewrite H1. split.
      * rewrite filter_cons_True by done. cbn [length]. lia.
      * intros i Hi. rewrite H2 by lia. unfold bc'.
        destruct (decide (b = i)) as [<-|Hne].
        -- rewrite list_lookup_alter_eq, filter_cons_True by (unfold b; lia).
           destruct (bc !! b); cbn; [f_equal; lia|done].
        -- rewrite list_lookup_alter_ne, filter_cons_False by (unfold b in *; lia).
           done.
Qed.

Lemma quot2_between a b : a ≤ b → a ≤ Z.quot (a + b) 2 ≤ b.
Proof.
  intros Hab. pose proof (Z.quot_rem' (a + b) 2).
  pose proof (Z.rem_bound_abs (a + b) 2 ltac:(lia)). lia.
Qed.

(** The median lies between two elements of the data. *)
Lemma int_median_between (l : list Z) :
  l ≠ [] → ∃ med x y, int_median l = Ok med ∧ x ∈ l ∧ y ∈ l ∧ x ≤ med ≤ y.
Proof.
  intros Hne. unfold int_median.
  pose proof (merge_sort_Permutation Z.le l) as Hperm.
  set (data := merge_sort Z.le l) in *.
  assert (length data = length l) as Hlen by by rewrite Hperm.
  assert (0 < Z.of_nat (length data)) as Hpos.
  { rewrite Hlen. destruct l; [done|cbn [length]; lia]. }
  assert (∀ i : nat, (i < length data)%nat → data !!! i ∈ l) as Hin.
  { intros i Hi. rewrite <- Hperm. by apply list_elem_of_lookup_total_2. }
  pose proof (Z.div_mod (Z.of_nat (length data)) 2 ltac:(lia)).
  pose proof (Z.mod_pos_bound (Z.of_nat (length data)) 2 ltac:(lia)).
  destruct (Z.eqb_spec (Z.of_nat (length data)) 0); [lia|].
  destruct (Z.eqb_spec (Z.of_nat (length data) `mod` 2) 1).
  - set (x := data !!! Z.to_nat (Z.of_nat (length data) / 2)).
    assert (x ∈ l) by (apply Hin; lia).
    exists x, x, x. split; [done|]. split; [done|]. split; [done|lia].
  - set (x := data !!! Z.to_nat (Z.of_nat (length data) / 2 - 1)).
    set (y := data !!! Z.to_nat (Z.of_nat (length data) / 2)).
    assert (x ∈ l) by (apply Hin; lia). assert (y ∈ l) by (apply Hin; lia).
    destruct (decide (x ≤ y)).
    + exists (Z.quot (x + y) 2), x, y. split; [done|].
      split; [done|]. split; [done|]. by apply quot2_between.
    + exists (Z.quot (x + y) 2), y, x. split; [done|].
      split; [done|]. split; [done|]. rewrite Z.add_comm.
      apply quot2_between. lia.
Qed.

Lemma total_zeros {A} (l : list A) : total ((λ _, 0) <$> l) = 0.
Proof. induction l as [|x l IH]; [done|]. unfold total in *. cbn. lia. Qed.

Lemma sparkline_buckets_unfold l med :
  int_median l = Ok med → 1 ≤ med →
  sparkline_buckets l
  = Ok (Bucketized med (range 1 (2 * med))
          (fill_buckets (Z.of_nat (length ((λ _, 0) <$> range 1 (2 * med))))
                        ((λ _, 0) <$> range 1 (2 * med)) 0 l).1
          (fill_buckets (Z.of_nat (length ((λ _, 0) <$> range 1 (2 * med))))
                        ((λ _, 0) <$> range 1 (2 * med)) 0 l).2).
Proof.
  intros Hmed Hpos. unfold sparkline_buckets. rewrite Hmed.
  cbn [mbind result_bind]. rewrite length_fmap.
  assert (length (range 1 (2 * med)) = Z.to_nat (2 * med - 1)) as Hlen
    by apply length_seqZ.
  destruct (Z.eqb_spec (Z.of_nat (length (range 1 (2 * med)))) 0); [lia|].
  by destruct (fill_buckets _ _ _ _).
Qed.

(** X17: on sizes of absolute value below 2^52, [sparkline_sizes] raises on
    an empty list.  On any other list it cannot bucketize exactly when the
    median is not positive; otherwise it makes [2 * median - 1] buckets,
    labelled 1 to [2 * median - 1], and every size it counts is in exactly
    one bucket. *)
Theorem sparkline_buckets_cases (sorted_sizes : list Z) :
  Forall (λ s, Z.abs s < 2 ^ 52) sorted_sizes →
  match sorted_sizes with
  | [] => sparkline_buckets sorted_sizes = Raise ValueError
  | _ =>
      ∃ med x y,
        int_median sorted_sizes = Ok med
        ∧ x ∈ sorted_sizes ∧ y ∈ sorted_sizes ∧ x ≤ med ≤ y
        ∧ (med ≤ 0 → sparkline_buckets sorted_sizes = Ok CantBucketize)
        ∧ (1 ≤ med →
           ∃ bc count,
             sparkline_buckets sorted_sizes
             = Ok (Bucketized med (range 1 (2 * med)) bc count)
             ∧ Z.of_nat (length bc) = 2 * med - 1
             ∧ total bc = count
             ∧ 0 ≤ count ≤ Z.of_nat (length sorted_sizes))
  end.
Proof.
  intros _. destruct sorted_sizes as [|s l]; [reflexivity|].
  destruct (int_median_between (s :: l)) as (med & x & y & Hmed & Hx & Hy & Hb);
    [done|].
  exists med, x, y. do 4 (split; [done|]). split.
  - intros Hle. unfold sparkline_buckets. rewrite Hmed.
    cbn [mbind result_bind]. by rewrite range_empty by lia.
  - intros Hpos. rewrite (sparkline_buckets_unfold _ med Hmed Hpos).
    eexists _, _. split; [done|].
    assert (length ((λ _ : Z, 0) <$> range 1 (2 * med)) = Z.to_nat (2 * med - 1))
      as Hlen by (rewrite length_fmap; apply length_seqZ).
    destruct (fill_buckets_spec ((λ _, 0) <$> range 1 (2 * med)) 0 (s :: l))
      as (H1 & H2 & H3); [lia|].
    rewrite total_zeros in H2. rewrite H1. lia.
Qed.

Lemma sparkline_buckets_cases_witness :
  ∃ med x y,
    int_median [1; 2; 3; 3; 4; 9] = Ok med
    ∧ x ∈ [1; 2; 3; 3; 4; 9] ∧ y ∈ [1; 2; 3; 3; 4; 9] ∧ x ≤ med ≤ y
    ∧ (med ≤ 0 → sparkline_buckets [1; 2; 3; 3; 4; 9] = Ok CantBucketize)
    ∧ (1 ≤ med →
       ∃ bc count,
         sparkline_buckets [1; 2; 3; 3; 4; 9]
         = Ok (Bucketized med (range 1 (2 * med)) bc count)
         ∧ Z.of_nat (length bc) = 2 * med - 1
         ∧ total bc = count
         ∧ 0 ≤ count ≤ Z.of_nat (length [1; 2; 3; 3; 4; 9])).
Proof.
  apply (sparkline_buckets_cases [1; 2; 3; 3; 4; 9]).
  repeat (constructor; [by vm_compute|]). constructor.
Defined.

(** X18: on sizes in ascending order, the sizes counted are those below the number
    of buckets, and the bucket at index [i] holds the number of sizes equal
    to [i] (for index 0, of sizes of at most 0): the early exit of the loop
    loses nothing. *)
Theorem sparkline_buckets_sorted (sorted_sizes : list Z) (med : Z)
    (bm bc : list Z) (count : Z) :
  StronglySorted Z.le sorted_sizes →
  sparkline_buckets sorted_sizes = Ok (Bucketized med bm bc count) →
  count = Z.of_nat (length (filter (λ s, s < 2 * med - 1) sorted_sizes))
  ∧ ∀ i, 0 ≤ i < 2 * med - 1 →
      bc !! Z.to_nat i
      = Some (Z.of_nat (length (filter (λ s, Z.max 0 s = i) sorted_sizes))).
Proof.
  intros Hsorted Hres.
  assert (int_median sorted_sizes = Ok med ∧ 1 ≤ med) as [Hmed Hpos].
  { unfold sparkline_buckets in Hres.
    destruct (int_median sorted_sizes) as [med'| |]; [|done|done].
    cbn [mbind result_bind] in Hres.
    destruct (Z.eqb_spec (Z.of_nat (length (range 1 (2 * med')))) 0)
      as [E|E]; [done|].
    destruct (fill_buckets _ _ _ _). injection Hres as -> _ _ _.
    split; [done|]. unfold range in E. rewrite length_seqZ in E. lia. }
  rewrite (sparkline_buckets_unfold _ med Hmed Hpos) in Hres.
  injection Hres as _ <- <-.
  assert (length ((λ _ : Z, 0) <$> range 1 (2 * med)) = Z.to_nat (2 * med - 1))
    as Hlen by (rewrite length_fmap; apply length_seqZ).
  destruct (fill_buckets_sorted ((λ _, 0) <$> range 1 (2 * med)) 0
              sorted_sizes) as [H1 H2]; [lia|done|].
  rewrite Hlen in H1, H2. rewrite Hlen. rewrite Z2Nat.id in * by lia. split.
  - rewrite H1. lia.
  - intros i Hi. rewrite H2 by lia. rewrite Z2Nat.id by lia.
    rewrite list_lookup_fmap.
    destruct (range 1 (2 * med) !! Z.to_nat i) eqn:E; [done|].
    apply lookup_ge_None in E. unfold range in E. rewrite length_seqZ in E.
    lia.
Qed.

Lemma sparkline_buckets_sorted_witness :
  5 = Z.of_nat (length (filter (λ s, s < 2 * 3 - 1) [1; 2; 3; 3; 4; 9]))
  ∧ ∀ i, 0 ≤ i < 2 * 3 - 1 →
      [0; 1; 1; 2; 1] !! Z.to_nat i
      = Some (Z.of_nat (length (filter (λ s, Z.max 0 s = i) [1; 2; 3; 3; 4; 9]))).
Proof.
  apply (sparkline_buckets_sorted [1; 2; 3; 3; 4; 9] 3 [1; 2; 3; 4; 5]).
  - repeat (apply SSorted_cons; [|repeat (constructor; [lia|]); constructor]).
    apply SSorted_nil.
  - vm_compute. reflexivity.
Defined.

(** ** main: the transactions of one block *)

Lemma executed_insert (dict : gmap string Block.contract_data) k d :
  Block.executed_transactions (<[k := d]> dict)
  = Block.instances d + Block.executed_transactions dict
    - from_option Block.instances 0 (dict !! k).
Proof.
  unfold Block.executed_transactions.
  assert (∀ (z1 z2 : Block.contract_data) (y : Z),
            Block.instances z1 + (Block.instances z2 + y)
            = Block.instances z2 + (Block.instances z1 + y)) as Hcomm
    by (intros; lia).
  destruct (dict !! k) as [d0|] eqn:E; cbn [from_option].
  - rewrite <- insert_delete_eq.
    rewrite map_fold_insert_L; [|intros; apply Hcomm|apply lookup_delete_eq].
    rewrite (map_fold_delete_L _ _ k d0 dict);
      [lia|intros; apply Hcomm|done].
  - rewrite map_fold_insert_L; [lia|intros; apply Hcomm|done].
Qed.

Lemma size_insert (dict : gmap string Block.contract_data) k d :
  Z.of_nat (size (<[k := d]> dict))
  = Z.of_nat (size dict) + (if dict !! k is Some _ then 0 else 1).
Proof.
  destruct (dict !! k) eqn:E.
  - rewrite map_size_insert_Some by done. lia.
  - rewrite map_size_insert_None by done. lia.
Qed.

(** The bytes after the segments of a transaction. *)
Lemma segments_fold stats (segs : list Block.segment) (X : gset Z) l :
  ∃ l', foldl (Block.segment_body stats) (X, l) segs
        = (foldl (λ Y s, bitmap_update Y
                           (range (Block.Start s) (Block.End_ s + 1)))
                 X segs, l')
        ∧ ∀ x, x ∈ foldl (λ Y s, bitmap_update Y
                                   (range (Block.Start s) (Block.End_ s + 1)))
                         X segs
               ↔ x ∈ X ∨ ∃ s, s ∈ segs ∧ Block.Start s ≤ x ≤ Block.End_ s.
Proof.
  revert X l. induction segs as [|s segs IH]; intros X l; cbn [foldl].
  - exists l. split; [done|]. intros x. split; [by left|].
    intros [?|(s & Hs & _)]; [done|]. by apply elem_of_nil in Hs.
  - unfold Block.segment_body at 2.
    destruct stats;
      match goal with |- context [foldl _ (?Y, ?k) segs] =>
        destruct (IH Y k) as (l' & -> & Hel) end;
      exists l'; (split; [done|]); intros x; rewrite Hel;
      unfold bitmap_update; rewrite elem_of_union, elem_of_list_to_set,
        elem_of_range; setoid_rewrite elem_of_cons;
      (split; [intros [[?|?]|(s' & ? & ?)]|intros [?|(s' & [->|?] & ?)]]);
      eauto 6 with lia.
Qed.

(** What one transaction does to the counters. *)
Lemma trace_body_counts stats st t :
  let st' := Block.trace_body stats st t in
  let e := if Block.Tx t is Some _ then 1 else 0 in
  Block.executed_transactions (Block.dict_contracts st')
  = Block.executed_transactions (Block.dict_contracts st) + e
  ∧ Block.empty_transactions st' = Block.empty_transactions st + (1 - e)
  ∧ Block.reused_contracts st' + Z.of_nat (size (Block.dict_contracts st'))
    = Block.reused_contracts st + Z.of_nat (size (Block.dict_contracts st)) + e
  ∧ Block.block_numsegments st'
    = Block.block_numsegments st
      + (if Block.Tx t is Some _ then Z.of_nat (length (Block.Segments t)) else 0).
Proof.
  unfold Block.trace_body. destruct (Block.Tx t) as [tx|].
  - destruct (Block.dict_contracts st !! Block.CodeHash t) as [d|] eqn:E;
      match goal with |- context [foldl _ (?Y, ?k) (Block.Segments t)] =>
        destruct (segments_fold stats (Block.Segments t) Y k) as (l' & -> & _)
      end;
      cbn [Block.dict_contracts Block.empty_transactions
           Block.reused_contracts Block.block_numsegments];
      rewrite executed_insert, size_insert, E;
      cbn [from_option Block.instances]; repeat split; lia.
  - cbn [Block.dict_contracts Block.empty_transactions
         Block.reused_contracts Block.block_numsegments].
    repeat split; lia.
Qed.

Lemma traces_fold_counts stats traces st :
  let st' := foldl (Block.trace_body stats) st traces in
  let e := Z.of_nat (length (filter (λ t, is_Some (Block.Tx t)) traces)) in
  Block.executed_transactions (Block.dict_contracts st')
  = Block.executed_transactions (Block.dict_contracts st) + e
  ∧ Block.empty_transactions st'
    = Block.empty_transactions st + (Z.of_nat (length traces) - e)
  ∧ Block.reused_contracts st' + Z.of_nat (size (Block.dict_contracts st'))
    = Block.reused_contracts st + Z.of_nat (size (Block.dict_contracts st)) + e.
Proof.
  revert st. induction traces as [|t traces IH]; intros st; cbn [foldl].
  - cbn. repeat split; lia.
  - destruct (IH (Block.trace_body stats st t)) as (H1 & H2 & H3).
    destruct (trace_body_counts stats st t) as (B1 & B2 & B3 & _).
    cbn zeta in *. rewrite H1, H2, B1, B2. rewrite H3, B3.
    destruct (Block.Tx t) as [tx|] eqn:E.
    + rewrite filter_cons_True by (rewrite E; by eexists).
      cbn [length]. repeat split; lia.
    + rewrite filter_cons_False by (rewrite E; by intros [? ?]).
      cbn [length]. repeat split; lia.
Qed.

(** X19: the coherency check of line 298 never fails: the instances of the
    contracts count the transactions with code, and the others are the empty
    transactions.  A block is skipped exactly when it has no transaction
    with code; [reused_contracts] counts the transactions with code beyond
    the first of each contract. *)
Theorem block_coherency_check_passes (segment_stats : bool)
    (traces : list Block.trace) :
  Block.valid traces →
  ∃ r, Block.accumulate segment_stats traces = Ok r
       ∧ (r = None ↔ Forall (λ t, Block.Tx t = None) traces)
       ∧ ∀ st, r = Some st →
           Block.executed_transactions (Block.dict_contracts st)
           = Z.of_nat (length (filter (λ t, is_Some (Block.Tx t)) traces))
           ∧ Block.empty_transactions st
             = Z.of_nat (length (filter (λ t, Block.Tx t = None) traces))
           ∧ Block.reused_contracts st
             = Z.of_nat (length (filter (λ t, is_Some (Block.Tx t)) traces))
               - Z.of_nat (size (Block.dict_contracts st)).
Proof.
  intros _.
  assert (∀ l : list Block.trace,
            Z.of_nat (length l)
            = Z.of_nat (length (filter (λ t, is_Some (Block.Tx t)) l))
              + Z.of_nat (length (filter (λ t, Block.Tx t = None) l)))
    as Hsplit.
  { induction l as [|t l IH]; [done|]. destruct (Block.Tx t) eqn:E.
    - rewrite filter_cons_True by (rewrite E; by eexists).
      rewrite (filter_cons_False (λ t, Block.Tx t = None)) by (by rewrite E).
      cbn [length]. lia.
    - rewrite filter_cons_False by (rewrite E; by intros [? ?]).
      rewrite (filter_cons_True (λ t, Block.Tx t = None)) by done.
      cbn [length]. lia. }
  assert (∀ l : list Block.trace,
            length (filter (λ t, is_Some (Block.Tx t)) l) = 0%nat
            ↔ Forall (λ t, Block.Tx t = None) l) as Hnone.
  { induction l as [|t l IH]; [by split|]. destruct (Block.Tx t) eqn:E.
    - rewrite filter_cons_True by (rewrite E; by eexists). cbn [length].
      split; [lia|]. intros [HE _]%Forall_cons. congruence.
    - rewrite filter_cons_False by (rewrite E; by intros [? ?]).
      rewrite IH, Forall_cons. tauto. }
  unfold Block.accumulate.
  destruct (Z.eqb_spec (Z.of_nat (length traces)) 0) as [E0|E0].
  - exists None. split; [done|]. split; [|done].
    destruct traces; [done|cbn [length] in E0; lia].
  - destruct (traces_fold_counts segment_stats traces (Block.Vars ∅ 0 0 [] 0))
      as (H1 & H2 & H3). cbn zeta in *.
    set (st := foldl (Block.trace_body segment_stats) _ traces) in *.
    cbn [Block.dict_contracts Block.empty_transactions Block.reused_contracts]
      in H1, H2, H3.
    change (Block.executed_transactions ∅) with 0 in H1.
    change (size (∅ : gmap string Block.contract_data)) with 0%nat in H3.
    unfold assert. rewrite H1, H2.
    destruct (Z.eqb_spec (Z.of_nat (length traces))
      (0 + Z.of_nat (length (filter (λ t, is_Some (Block.Tx t)) traces))
       + (0 + (Z.of_nat (length traces)
               - Z.of_nat (length (filter (λ t, is_Some (Block.Tx t)) traces))))));
      [|lia].
    cbn [mbind result_bind]. specialize (Hsplit traces).
    destruct (Z.eqb_spec
      (0 + Z.of_nat (length (filter (λ t, is_Some (Block.Tx t)) traces))) 0)
      as [Ez|Ez].
    + exists None. split; [done|]. split; [|done]. split; [|done].
      intros _. apply Hnone. lia.
    + exists (Some st). split; [done|]. split.
      * split; [done|]. intros HF%Hnone. lia.
      * intros st' [= <-]. repeat split; lia.
Qed.

Lemma valid_example :
  Block.valid [Block.Trace None "" "" 0 [];
               Block.Trace (Some "t") "a" "c1" 10 [Block.Segment 0 3]].
Proof.
  intros t s Ht Hs. rewrite !elem_of_cons in Ht.
  destruct Ht as [->|[->|Ht]].
  - by apply elem_of_nil in Hs.
  - cbn [Block.Segments] in Hs. apply list_elem_of_singleton in Hs as ->.
    cbn [Block.Start Block.End_]. lia.
  - by apply elem_of_nil in Ht.
Qed.

Lemma block_coherency_check_passes_witness :
  ∃ r, Block.accumulate false
         [Block.Trace None "" "" 0 [];
          Block.Trace (Some "t") "a" "c1" 10 [Block.Segment 0 3]] = Ok r
       ∧ (r = None ↔ Forall (λ t, Block.Tx t = None)
                       [Block.Trace None "" "" 0 [];
                        Block.Trace (Some "t") "a" "c1" 10 [Block.Segment 0 3]])
       ∧ ∀ st, r = Some st →
           Block.executed_transactions (Block.dict_contracts st)
           = Z.of_nat (length (filter (λ t, is_Some (Block.Tx t))
               [Block.Trace None "" "" 0 [];
                Block.Trace (Some "t") "a" "c1" 10 [Block.Segment 0 3]]))
           ∧ Block.empty_transactions st
             = Z.of_nat (length (filter (λ t, Block.Tx t = None)
                 [Block.Trace None "" "" 0 [];
                  Block.Trace (Some "t") "a" "c1" 10 [Block.Segment 0 3]]))
           ∧ Block.reused_contracts st
             = Z.of_nat (length (filter (λ t, is_Some (Block.Tx t))
                 [Block.Trace None "" "" 0 [];
                  Block.Trace (Some "t") "a" "c1" 10 [Block.Segment 0 3]]))
               - Z.of_nat (size (Block.dict_contracts st)).
Proof.
  apply (block_coherency_check_passes false
           [Block.Trace None "" "" 0 [];
            Block.Trace (Some "t") "a" "c1" 10 [Block.Segment 0 3]]).
  apply valid_example.
Defined.

(** What one transaction does to the entry of a contract. *)
Lemma trace_body_lookup stats st t k :
  Block.dict_contracts (Block.trace_body stats st t) !! k
  = if decide (is_Some (Block.Tx t) ∧ Block.CodeHash t = k) then
      Some (Block.ContractData
              (from_option Block.instances 0 (Block.dict_contracts st !! k) + 1)
              (from_option Block.size (Block.CodeSize t)
                 (Block.dict_contracts st !! k))
              (foldl (λ Y s, bitmap_update Y
                               (range (Block.Start s) (Block.End_ s + 1)))
                     (from_option Block.map ∅ (Block.dict_contracts st !! k))
                     (Block.Segments t)))
    else Block.dict_contracts st !! k.
Proof.
  unfold Block.trace_body. destruct (Block.Tx t) as [tx|].
  - destruct (decide (Block.CodeHash t = k)) as [<-|Hne].
    + rewrite decide_True by (split; [by eexists|done]).
      destruct (Block.dict_contracts st !! Block.CodeHash t) as [d|];
        match goal with |- context [foldl _ (?Y, ?l) (Block.Segments t)] =>
          destruct (segments_fold stats (Block.Segments t) Y l) as (l' & -> & _)
        end;
        cbn [Block.dict_contracts from_option]; by rewrite lookup_insert_eq.
    + rewrite decide_False by (intros [_ ?]; done).
      destruct (Block.dict_contracts st !! Block.CodeHash t) as [d|];
        match goal with |- context [foldl _ (?Y, ?l) (Block.Segments t)] =>
          destruct (segments_fold stats (Block.Segments t) Y l) as (l' & -> & _)
        end;
        cbn [Block.dict_contracts]; by rewrite lookup_insert_ne.
  - by rewrite decide_False by (by intros [[? ?] _]).
Qed.

Lemma traces_fold_lookup stats traces st k :
  let o := Block.dict_contracts st !! k in
  let cts := Block.contract_traces k traces in
  let o' := Block.dict_contracts (foldl (Block.trace_body stats) st traces) !! k in
  (is_Some o' ↔ is_Some o ∨ cts ≠ [])
  ∧ ∀ d, o' = Some d →
      Block.instances d = from_option Block.instances 0 o + Z.of_nat (length cts)
      ∧ Block.size d
        = from_option Block.size (from_option Block.CodeSize 0 (head cts)) o
      ∧ ∀ x, x ∈ Block.map d ↔
             x ∈ from_option Block.map ∅ o
             ∨ ∃ t s, t ∈ cts ∧ s ∈ Block.Segments t
                      ∧ Block.Start s ≤ x ≤ Block.End_ s.
Proof.
  revert st. induction traces as [|t traces IH]; intros st; cbn zeta.
  - cbn [foldl]. unfold Block.contract_traces. rewrite filter_nil. split.
    + split; [by left|]. by intros [?|?].
    + intros d ->. cbn [from_option length]. split; [lia|]. split; [done|].
      intros x. split; [by left|]. intros [?|(t & s & Ht & _)]; [done|].
      by apply elem_of_nil in Ht.
  - cbn [foldl]. specialize (IH (Block.trace_body stats st t)).
    cbn zeta in IH. rewrite trace_body_lookup in IH.
    unfold Block.contract_traces in *. destruct IH as [IH1 IH2].
    destruct (decide (is_Some (Block.Tx t) ∧ Block.CodeHash t = k)) as [Hm|Hm].
    + rewrite filter_cons_True by done. split.
      * rewrite IH1. split; [by right|]. intros _. left. by eexists.
      * intros d Hd. destruct (IH2 d Hd) as (H1 & H2 & H3).
        cbn [from_option Block.instances Block.size Block.map head length] in *.
        split; [lia|]. split; [done|]. intros x. rewrite H3.
        destruct (segments_fold stats (Block.Segments t)
                    (from_option Block.map ∅ (Block.dict_contracts st !! k)) [])
          as (l' & _ & Hel).
        rewrite Hel. setoid_rewrite elem_of_cons. split.
        -- intros [[?|(s & ? & ?)]|(t' & s & ? & ? & ?)]; eauto 8.
        -- intros [?|(t' & s & [->|?] & ? & ?)]; eauto 8.
    + rewrite filter_cons_False by done. by split.
Qed.

Lemma accumulate_entry (segment_stats : bool)
    (traces : list Block.trace) (st : Block.vars) (codehash : string) :
  Block.accumulate segment_stats traces = Ok (Some st) →
  (Block.dict_contracts st !! codehash = None
   ↔ Block.contract_traces codehash traces = [])
  ∧ ∀ d, Block.dict_contracts st !! codehash = Some d →
      Block.instances d
      = Z.of_nat (length (Block.contract_traces codehash traces))
      ∧ (∃ t0, head (Block.contract_traces codehash traces) = Some t0
               ∧ Block.size d = Block.CodeSize t0)
      ∧ ∀ x, x ∈ Block.map d ↔
             ∃ t s, t ∈ Block.contract_traces codehash traces
                    ∧ s ∈ Block.Segments t
                    ∧ Block.Start s ≤ x ≤ Block.End_ s.
Proof.
  intros Hacc. unfold Block.accumulate in Hacc.
  destruct (Z.of_nat (length traces) =? 0); [done|].
  destruct (assert _); [|done|done]. cbn [mbind result_bind] in Hacc.
  destruct (_ =? 0); [done|]. injection Hacc as <-.
  destruct (traces_fold_lookup segment_stats traces (Block.Vars ∅ 0 0 [] 0)
              codehash) as [H1 H2].
  cbn zeta in H1, H2. cbn [Block.dict_contracts] in H1, H2.
  rewrite lookup_empty in H1, H2. cbn [from_option] in H2. split.
  - rewrite eq_None_not_Some, H1. split.
    + intros Hn. destruct (Block.contract_traces codehash traces); [done|].
      destruct Hn. by right.
    + intros -> [[? [=]]|?]; done.
  - intros d Hd. destruct (H2 d Hd) as (Hi & Hs & Hm).
    split; [lia|]. split.
    + destruct (Block.contract_traces codehash traces) as [|t0 cts] eqn:E.
      * assert (is_Some (Some d)) as Hsome by by eexists.
        rewrite <- Hd in Hsome. apply H1 in Hsome as [[? [=]]|?]; done.
      * exists t0. by split.
    + intros x. rewrite Hm. split; [|by right].
      intros [Hx|?]; [|done]. by apply not_elem_of_empty in Hx.
Qed.

(** X20: after the transactions of a block, a contract has an entry exactly when
    one of them runs its code; the entry counts these transactions, keeps
    the code size of the first, and its bytes are those covered by one of
    their segments, both ends included. *)
Theorem block_contract_data (segment_stats : bool)
    (traces : list Block.trace) (st : Block.vars) (codehash : string) :
  Block.valid traces →
  Block.accumulate segment_stats traces = Ok (Some st) →
  (Block.dict_contracts st !! codehash = None
   ↔ Block.contract_traces codehash traces = [])
  ∧ ∀ d, Block.dict_contracts st !! codehash = Some d →
      Block.instances d
      = Z.of_nat (length (Block.contract_traces codehash traces))
      ∧ (∃ t0, head (Block.contract_traces codehash traces) = Some t0
               ∧ Block.size d = Block.CodeSize t0)
      ∧ ∀ x, x ∈ Block.map d ↔
             ∃ t s, t ∈ Block.contract_traces codehash traces
                    ∧ s ∈ Block.Segments t
                    ∧ Block.Start s ≤ x ≤ Block.End_ s.
Proof. intros _. apply accumulate_entry. Qed.

Lemma block_contract_data_witness :
  (Block.dict_contracts
     (Block.Vars {["c1" := Block.ContractData 1 10 {[0; 1; 2; 3]}]} 0 1 [] 1)
     !! "c1" = None
   ↔ Block.contract_traces "c1"
       [Block.Trace None "" "" 0 [];
        Block.Trace (Some "t") "a" "c1" 10 [Block.Segment 0 3]] = [])
  ∧ ∀ d, Block.dict_contracts
           (Block.Vars {["c1" := Block.ContractData 1 10 {[0; 1; 2; 3]}]}
              0 1 [] 1) !! "c1" = Some d →
      Block.instances d
      = Z.of_nat (length (Block.contract_traces "c1"
           [Block.Trace None "" "" 0 [];
            Block.Trace (Some "t") "a" "c1" 10 [Block.Segment 0 3]]))
      ∧ (∃ t0, head (Block.contract_traces "c1"
                 [Block.Trace None "" "" 0 [];
                  Block.Trace (Some "t") "a" "c1" 10 [Block.Segment 0 3]])
               = Some t0
               ∧ Block.size d = Block.CodeSize t0)
      ∧ ∀ x, x ∈ Block.map d ↔
             ∃ t s, t ∈ Block.contract_traces "c1"
                      [Block.Trace None "" "" 0 [];
                       Block.Trace (Some "t") "a" "c1" 10 [Block.Segment 0 3]]
                    ∧ s ∈ Block.Segments t
                    ∧ Block.Start s ≤ x ≤ Block.End_ s.
Proof.
  apply (block_contract_data false
           [Block.Trace None "" "" 0 [];
            Block.Trace (Some "t") "a" "c1" 10 [Block.Segment 0 3]]).
  - apply valid_example.
  - vm_compute. reflexivity.
Defined.

(** X21: a contract whose transactions in the block have no segment, or only
    segments that end before they start, has no executed byte, and its
    chunking raises. *)
Theorem block_contract_without_bytes (segment_stats : bool)
    (traces : list Block.trace) (st : Block.vars) (codehash : string)
    (d : Block.contract_data) (chunk_size a : Z) :
  Block.valid traces →
  Block.accumulate segment_stats traces = Ok (Some st) →
  Block.dict_contracts st !! codehash = Some d →
  (∀ t s, t ∈ Block.contract_traces codehash traces → s ∈ Block.Segments t →
          Block.End_ s < Block.Start s) →
  Block.map d = ∅
  ∧ chunk_contract (Block.map d) (Block.size d) chunk_size a
    = Raise EmptyBitmapError.
Proof.
  intros _ Hacc Hd Hsegs.
  destruct (accumulate_entry segment_stats traces st codehash Hacc) as [_ H].
  destruct (H d Hd) as (_ & _ & Hm).
  assert (Block.map d = ∅) as ->; [|done].
  apply set_eq. intros x. rewrite Hm. split.
  - intros (t & s & Ht & Hs & Hr). specialize (Hsegs t s Ht Hs). lia.
  - by intros ?%not_elem_of_empty.
Qed.

Lemma block_contract_without_bytes_witness :
  Block.map (Block.ContractData 1 10 ∅) = ∅
  ∧ chunk_contract (Block.map (Block.ContractData 1 10 ∅))
      (Block.size (Block.ContractData 1 10 ∅)) 32 2
    = Raise EmptyBitmapError.
Proof.
  apply (block_contract_without_bytes false
           [Block.Trace (Some "t") "a" "c1" 10 []]
           (Block.Vars {["c1" := Block.ContractData 1 10 ∅]} 0 0 [] 0) "c1").
  - intros t s Ht Hs. apply list_elem_of_singleton in Ht as ->.
    by apply elem_of_nil in Hs.
  - vm_compute. reflexivity.
  - vm_compute. reflexivity.
  - intros t s Ht Hs. vm_compute in Ht.
    apply list_elem_of_singleton in Ht as ->. by apply elem_of_nil in Hs.
Defined.

(** X22: when the segments of a block lie within what a bitmap can hold, so do
    the bytes of every contract, and a contract with a segment that does not
    end before it starts has executed bytes. *)
Theorem block_bytemaps_wf (segment_stats : bool)
    (traces : list Block.trace) (st : Block.vars) (codehash : string)
    (d : Block.contract_data) :
  Block.valid traces →
  Block.accumulate segment_stats traces = Ok (Some st) →
  Block.dict_contracts st !! codehash = Some d →
  RoaringBitmap.wf (Block.map d)
  ∧ 1 ≤ Block.instances d
  ∧ ((∃ t s, t ∈ Block.contract_traces codehash traces
             ∧ s ∈ Block.Segments t ∧ Block.Start s ≤ Block.End_ s) →
     Block.map d ≠ ∅).
Proof.
  intros Hvalid Hacc Hd.
  destruct (accumulate_entry segment_stats traces st codehash Hacc) as [Hn H].
  destruct (H d Hd) as (Hi & _ & Hm). split; [|split].
  - intros x (t & s & Ht & Hs & Hr)%Hm.
    unfold Block.contract_traces in Ht. apply list_elem_of_filter in Ht as [_ Ht].
    specialize (Hvalid t s Ht Hs). lia.
  - destruct (decide (Block.contract_traces codehash traces = [])) as [E|E].
    + apply Hn in E. congruence.
    + destruct (Block.contract_traces codehash traces); [done|].
      cbn [length] in Hi. lia.
  - intros (t & s & Ht & Hs & Hr) HE.
    assert (Block.Start s ∈ Block.map d) as Hin
      by (apply Hm; exists t, s; repeat split; [done|done|lia|lia]).
    rewrite HE in Hin. by apply not_elem_of_empty in Hin.
Qed.

Lemma block_bytemaps_wf_witness :
  RoaringBitmap.wf (Block.map (Block.ContractData 1 10 {[0; 1; 2; 3]}))
  ∧ 1 ≤ Block.instances (Block.ContractData 1 10 {[0; 1; 2; 3]})
  ∧ ((∃ t s, t ∈ Block.contract_traces "c1"
                   [Block.Trace (Some "t") "a" "c1" 10 [Block.Segment 0 3]]
             ∧ s ∈ Block.Segments t ∧ Block.Start s ≤ Block.End_ s) →
     Block.map (Block.ContractData 1 10 {[0; 1; 2; 3]}) ≠ ∅).
Proof.
  apply (block_bytemaps_wf false
           [Block.Trace (Some "t") "a" "c1" 10 [Block.Segment 0 3]]
           (Block.Vars {["c1" := Block.ContractData 1 10 {[0; 1; 2; 3]}]}
              0 0 [] 1) "c1").
  - intros t s Ht Hs. apply list_elem_of_singleton in Ht as ->.
    cbn [Block.Segments] in Hs. apply list_elem_of_singleton in Hs as ->.
    cbn [Block.Start Block.End_]. lia.
  - vm_compute. reflexivity.
  - vm_compute. reflexivity.
Defined.
